(** * go-git: object resolution, reference resolution and commit ancestry

    A shallow embedding of [repo_object.go] and of the commit/reference part
    of the repository (the file that defines [getCommitIdOfRef], [getCommit],
    [CommitsBetween] and [commitsBefore]), with the properties of the
    specification stated over it.

    Conventions of the embedding:
    - a Go [string] and a [[]byte] are a Rocq [string] (a sequence of 8-bit
      characters); an [ObjectID] ([[20]byte]) is the string of its 20 bytes;
    - a Go [map] is a stdpp [gmap]; a [nil] map is [None];
    - [(T, error)] results are the sum [result T];
    - the repository handle is threaded explicitly through every method that
      can mutate it ([getCommit] fills [commitCache]);
    - the storage layer (loose-object decoder, pack decoder, commit-body
      parser, file reads) is a record of functions, [Collaborators];
    - loops and recursions that the source does not bound ([goto start], the
      [for] of [CommitsBetween], the recursion of [commitsBefore]) take a
      fuel argument and answer [OutOfFuel] when it is exhausted. *)

From Stdlib Require Import ZArith NArith String Ascii List Bool Lia Sorted.
From stdpp Require Import base option list strings gmap.

Local Open Scope Z_scope.

(** ** Errors *)

Abbreviation ObjectID := string.

(** What the storage collaborators fail with (section 6 of the
    specification): the file does not exist, or some other I/O or format
    error.  [os.IsNotExist] tells the two apart. *)
Inductive ioerror :=
| NotExist (path : string)
| IOError (msg : string).

(** The values of Go's [error] interface that reach the callers of this
    package. *)
Inductive error :=
| ObjectNotFound (id : ObjectID)     (* type ObjectNotFound ObjectID *)
| RefNotFound (refpath : string)     (* type RefNotFound string *)
| ErrNoPackedRefs                    (* errors.New("no packed-refs") *)
| errorString (msg : string)         (* errors.New / fmt.Errorf *)
| ParseError (msg : string)          (* what parseCommitData fails with *)
| IO (e : ioerror).                  (* propagated from the storage layer *)

Inductive result (A : Type) :=
| Ok (a : A)
| Err (e : error).
Arguments Ok {A} a.
Arguments Err {A} e.

Definition IsNotExist (e : error) : bool :=
  match e with
  | IO (NotExist _) => true
  | _ => false
  end.

Definition lift_io {A} (r : ioerror + A) : result A :=
  match r with
  | inl e => Err (IO e)
  | inr a => Ok a
  end.

(** ** repo_object.go *)

Definition ObjectType := Z.

Definition ObjectCommit : ObjectType := 0x10.
Definition ObjectTree : ObjectType := 0x20.
Definition ObjectBlob : ObjectType := 0x30.
Definition ObjectTag : ObjectType := 0x40.

(** [Data] is the sequence of bytes the [io.ReadCloser] delivers. *)
Record Object := mkObject {
  Type_ : ObjectType;
  Size : Z;
  Data : string
}.

Definition ObjectType_String (t : ObjectType) : string :=
  if t =? ObjectCommit then "commit"
  else if t =? ObjectTree then "tree"
  else if t =? ObjectBlob then "blob"
  else EmptyString.

Record idxFile := mkIdx {
  packpath : string;
  offsetValues : gmap string N
}.

(** Modelled from the spec: the Commit record, which is declared in
    another file of the package: an identifier, the ordered parent identifiers, the
    committer timestamp (an instant, compared with [Equal], [After] and
    [Before]) and the message.  The back-reference to the owning repository
    that [getCommit] sets is the handle that is threaded through the calls. *)
Record Commit := mkCommit {
  Id : ObjectID;
  parents : list ObjectID;
  When : Z;
  CommitMessage : string
}.

Definition ParentCount (c : Commit) : nat := length (parents c).

(** Calls to the storage collaborators, recorded in call order.  This is a
    ghost field: no function of the package reads it. *)
Inductive Call :=
| CallReadObjectFile (path : string) (metaOnly : bool)
| CallReadObjectBytes (pack : string) (offset : N) (metaOnly : bool)
| CallParseCommitData (data : string).

Record Repository := mkRepo {
  Path : string;
  indexfiles : list idxFile;
  commitCache : option (gmap string Commit);
  calls : list Call
}.

Definition record (c : Call) (repo : Repository) : Repository :=
  mkRepo (Path repo) (indexfiles repo) (commitCache repo) (calls repo ++ [c]).

(** The functions of the package and of Go's library that the embedded
    functions call and that are defined elsewhere. *)
Record Collaborators := mkCollab {
  Join : string → string → string;
  ReadFile : string → ioerror + string;
  (* os.Open followed by a bufio.Scanner over the file: the lines that
     scan.Text() yields, and what scan.Err() answers after the last one *)
  OpenLines : string → ioerror + (list string * option ioerror);
  filepathFromSHA1 : string → string → string;
  readObjectFile : string → bool → ioerror + (ObjectType * Z * string);
  readObjectBytes :
    string → list idxFile → N → bool → ioerror + (ObjectType * Z * string);
  parseCommitData : string → string + Commit
}.

(** Modelled from the spec: [ObjectID.String], the 40 lowercase hex
    characters of the 20 bytes. *)
Definition hexdigit (n : N) : ascii :=
  ascii_of_N (if (n <? 10)%N then 48 + n else 87 + n)%N.

Fixpoint ObjectID_String (id : ObjectID) : string :=
  match id with
  | EmptyString => EmptyString
  | String c rest =>
      String (hexdigit (N.div (N_of_ascii c) 16))
        (String (hexdigit (N.modulo (N_of_ascii c) 16)) (ObjectID_String rest))
  end.

Fixpoint findObjectPack (ixs : list idxFile) (id : ObjectID)
  : option (idxFile * N) :=
  match ixs with
  | [] => None
  | indexfile :: rest =>
      match offsetValues indexfile !! id with
      | Some offset => Some (indexfile, offset)
      | None => findObjectPack rest id
      end
  end.

Section Repo.
Context (ext : Collaborators).

(** The canonical path of the loose object [id]. *)
Definition loosePath (repo : Repository) (id : ObjectID) : string :=
  filepathFromSHA1 ext (Path repo) (ObjectID_String id).

(** [findObjectPack] is called twice by the source, for the [nil] test and
    for the pair; it reads [indexfiles] only, so one call stands for both. *)
Definition getRawObject (id : ObjectID) (metaOnly : bool) (repo : Repository)
  : result Object * Repository :=
  let path := loosePath repo id in
  let repo := record (CallReadObjectFile path metaOnly) repo in
  match lift_io (readObjectFile ext path metaOnly) with
  | Ok (ot, length, dataRc) => (Ok (mkObject ot length dataRc), repo)
  | Err err =>
      if negb (IsNotExist err) then (Err err, repo)
      else
        match findObjectPack (indexfiles repo) id with
        | None => (Err (ObjectNotFound id), repo)
        | Some (pack, offset) =>
            let repo :=
              record (CallReadObjectBytes (packpath pack) offset metaOnly) repo in
            match lift_io (readObjectBytes ext (packpath pack) (indexfiles repo)
                             offset metaOnly) with
            | Ok (ot, length, data) => (Ok (mkObject ot length data), repo)
            | Err err => (Err err, repo)
            end
        end
  end.

(** *** Reference resolution *)

(** [strings.Fields] on the six ASCII white-space bytes.  The multi-byte
    encodings of the Unicode spaces that Go also splits on are ordinary
    bytes here. *)
Definition isSpace (c : ascii) : bool :=
  match N_of_ascii c with
  | 9%N | 10%N | 11%N | 12%N | 13%N | 32%N => true
  | _ => false
  end.

Fixpoint Fields_from (cur : string) (s : string) : list string :=
  match s with
  | EmptyString => if String.eqb cur EmptyString then [] else [cur]
  | String c rest =>
      if isSpace c then
        if String.eqb cur EmptyString then Fields_from EmptyString rest
        else cur :: Fields_from EmptyString rest
      else Fields_from (cur +:+ String c EmptyString) rest
  end.

Definition Fields (s : string) : list string := Fields_from EmptyString s.

Definition HasPrefix (s pre : string) : bool := String.prefix pre s.

Record packedRef := mkPackedRef {
  commit : string;
  refpath : string
}.

(** [%q]: the line between double quotes (the escapes of [%q] are left out;
    no caller reads the message). *)
Definition quoted (s : string) : string :=
  String (ascii_of_nat 34) (s +:+ String (ascii_of_nat 34) EmptyString).

Definition parseRefLine (line : string) : result packedRef :=
  let parseErr := errorString ("could not parse ref from line " +:+ quoted line) in
  match Fields line with
  | [f0; f1] =>
      if negb (String.length f0 =? 40)%nat then Err parseErr
      else if negb (HasPrefix f1 "refs/") then Err parseErr
      else Ok (mkPackedRef f0 f1)
  | _ => Err parseErr
  end.

(** The [for scan.Scan()] loop: the commit of the first line that parses
    and names [refpath]. *)
Fixpoint scanPacked (lines : list string) (refpath_ : string) : option string :=
  match lines with
  | [] => None
  | line :: rest =>
      match parseRefLine line with
      | Ok refLine =>
          if String.eqb (refpath refLine) refpath_ then Some (commit refLine)
          else scanPacked rest refpath_
      | Err _ => scanPacked rest refpath_
      end
  end.

(** When [os.Open] fails with an error other than not-exist, [f] is [nil]:
    the scanner's first read fails with [os.ErrInvalid], no line is
    scanned and [scan.Err()] is returned. *)
Definition getCommitIdOfPackedRef (repo : Repository) (refpath_ : string)
  : result string :=
  let path := Join ext (Path repo) "packed-refs" in
  match OpenLines ext path with
  | inl (NotExist _) => Err ErrNoPackedRefs
  | inl (IOError _) => Err (IO (IOError "invalid argument"))
  | inr (lines, scanErr) =>
      match scanPacked lines refpath_ with
      | Some c => Ok c
      | None =>
          match scanErr with
          | Some err => Err (IO err)
          | None => Err (RefNotFound refpath_)
          end
      end
  end.

End Repo.

(** [refRexp]: the five characters [ref: ], a captured run of any
    characters but newline, and a newline.  [refRexp_FindSubmatch s] is
    [FindAllStringSubmatch(s, 1)[0][1]], the capture of the leftmost match,
    or [None] when the pattern matches nowhere.  A dot does not match a
    newline, so at a given start the capture is what stands between the
    prefix and the first newline after it. *)
Fixpoint strip_prefix (pre s : string) : option string :=
  match pre, s with
  | EmptyString, _ => Some s
  | String a pre', String b s' =>
      if Ascii.eqb a b then strip_prefix pre' s' else None
  | String _ _, EmptyString => None
  end.

Definition newline : ascii := ascii_of_nat 10.

Fixpoint until_newline (s : string) : option string :=
  match s with
  | EmptyString => None
  | String c rest =>
      if Ascii.eqb c newline then Some EmptyString
      else String c <$> until_newline rest
  end.

Definition refRexp_at (s : string) : option string :=
  strip_prefix "ref: " s ≫= until_newline.

Fixpoint refRexp_FindSubmatch (s : string) : option string :=
  match refRexp_at s with
  | Some capture => Some capture
  | None =>
      match s with
      | EmptyString => None
      | String _ rest => refRexp_FindSubmatch rest
      end
  end.

(** Modelled from the spec: [IsObjectIDHex], which is defined in another
    file of the package: 40 characters, each of them a hex digit. *)
Definition isHexDigit (c : ascii) : bool :=
  let n := N_of_ascii c in
  ((48 <=? n) && (n <=? 57) || (97 <=? n) && (n <=? 102)
   || (65 <=? n) && (n <=? 70))%N.

Fixpoint allHex (s : string) : bool :=
  match s with
  | EmptyString => true
  | String c rest => isHexDigit c && allHex rest
  end.

Definition IsObjectIDHex (s : string) : bool :=
  (String.length s =? 40)%nat && allHex s.

(** How a call ends: it returns, it panics (a nil dereference), or the fuel
    it was given did not suffice. *)
Inductive outcome (A : Type) :=
| Returned (r : A)
| Panicked
| OutOfFuel.
Arguments Returned {A} r.
Arguments Panicked {A}.
Arguments OutOfFuel {A}.

Section Refs.
Context (ext : Collaborators).

(** Lines 56 to 69 of one pass through [start:]: the content [f] that the
    pass goes on with, or the error it returns. *)
Definition readRef (repo : Repository) (refpath_ : string) : result string :=
  let path := Join ext (Path repo) refpath_ in
  match ReadFile ext path with
  | inl (NotExist _) =>
      match getCommitIdOfPackedRef ext repo refpath_ with
      | Err ErrNoPackedRefs => Err (RefNotFound refpath_)
      | Err packedErr => Err packedErr
      | Ok f => Ok f
      end
  | inl err => Err (IO err)
  | inr f => Ok f
  end.

(** Lines 71 to 82: the content did not match [refRexp]. *)
Definition directRef (f : string) : result string :=
  if (String.length f <? 40)%nat then Err (errorString "ObjectID hash too short")
  else
    let id := substring 0 40 f in
    if negb (IsObjectIDHex id) then
      Err (errorString ("heads file wrong ObjectID string " +:+ id))
    else Ok id.

(** One unit of fuel per pass through [start:]. *)
Fixpoint getCommitIdOfRef (fuel : nat) (repo : Repository) (refpath_ : string)
  : outcome (result string) :=
  match fuel with
  | O => OutOfFuel
  | S fuel' =>
      match readRef repo refpath_ with
      | Err err => Returned (Err err)
      | Ok f =>
          match refRexp_FindSubmatch f with
          | None => Returned (directRef f)
          | Some target => getCommitIdOfRef fuel' repo target
          end
      end
  end.

Definition GetCommitIdOfBranch (fuel : nat) (repo : Repository)
    (branchName : string) : outcome (result string) :=
  getCommitIdOfRef fuel repo ("refs/heads/" +:+ branchName).

Definition GetCommitIdOfTag (fuel : nat) (repo : Repository)
    (tagName : string) : outcome (result string) :=
  getCommitIdOfRef fuel repo ("refs/tags/" +:+ tagName).

End Refs.

(** ** The commit cache *)

Definition cacheEntries (repo : Repository) : gmap string Commit :=
  default ∅ (commitCache repo).

Definition setCache (m : option (gmap string Commit)) (repo : Repository)
  : Repository :=
  mkRepo (Path repo) (indexfiles repo) m (calls repo).

Definition withId (id : ObjectID) (c : Commit) : Commit :=
  mkCommit id (parents c) (When c) (CommitMessage c).

(** Modelled from the spec: [Commit.ParentId], which is defined in another
    file of the package: the n-th parent identifier, an error when there is
    none. *)
Definition ParentId (c : Commit) (n : nat) : result ObjectID :=
  match parents c !! n with
  | Some id => Ok id
  | None => Err (errorString "parent does not exist")
  end.

Section Commits.
Context (ext : Collaborators).

(** Modelled from the spec: [Repository.object], which is defined in
    another file of the package: the Object Resolution Layer,
    [getRawObject]. *)
Definition object := getRawObject ext.

Definition getCommit (id : ObjectID) (repo : Repository)
  : result Commit * Repository :=
  let hit :=
    match commitCache repo with
    | Some cache => cache !! id
    | None => None
    end in
  match hit with
  | Some c => (Ok c, repo)
  | None =>
      let repo :=
        match commitCache repo with
        | Some _ => repo
        | None => setCache (Some ∅) repo
        end in
      match object id false repo with
      | (Err err, repo) => (Err err, repo)
      | (Ok o, repo) =>
          let repo := record (CallParseCommitData (Data o)) repo in
          match parseCommitData ext (Data o) with
          | inl msg => (Err (ParseError msg), repo)
          | inr commit =>
              let commit := withId id commit in
              (Ok commit,
               setCache (Some (<[id := commit]> (cacheEntries repo))) repo)
          end
      end
  end.

(** Modelled from the spec: [Commit.Parent], which is defined in another
    file of the package: [ParentId] and then [getCommit] on the owning
    repository. *)
Definition Parent (c : Commit) (n : nat) (repo : Repository)
  : result Commit * Repository :=
  match ParentId c n with
  | Err err => (Err err, repo)
  | Ok id => getCommit id repo
  end.

(** The [for] loop of [CommitsBetween]; [l] is the list built so far. *)
Fixpoint CommitsBetween_loop (fuel : nat) (cur : Commit) (before : option Commit)
    (l : list Commit) (repo : Repository)
  : outcome (result (list Commit)) * Repository :=
  match fuel with
  | O => (OutOfFuel, repo)
  | S fuel' =>
      match before with
      | None => (Panicked, repo)
      | Some b =>
          if String.eqb (Id cur) (Id b) then (Returned (Ok l), repo)
          else
            let l := l ++ [cur] in
            if (ParentCount cur =? 0)%nat then (Returned (Ok l), repo)
            else
              match Parent cur 0 repo with
              | (Err err, repo) => (Returned (Err err), repo)
              | (Ok cur, repo) => CommitsBetween_loop fuel' cur before l repo
              end
      end
  end.

Definition CommitsBetween (fuel : nat) (last before : option Commit)
    (repo : Repository)
  : outcome (result (list Commit)) * Repository :=
  match last with
  | None => (Returned (Ok []), repo)
  | Some cur =>
      if (ParentCount cur =? 0)%nat then (Returned (Ok []), repo)
      else CommitsBetween_loop fuel cur before [] repo
  end.

End Commits.

(** ** container/list

    A doubly linked list whose elems are addressed by pointer.  An
    element is its address, which is never reused, and its value; the list
    keeps the elems in order and the next free address. *)
Record Element := mkElement {
  addr : nat;
  Value : Commit
}.

Record List := mkList {
  elems : list Element;
  nextAddr : nat
}.

Definition list_New : List := mkList [] 0.

Definition PushBack (v : Commit) (l : List) : nat * List :=
  (nextAddr l,
   mkList (elems l ++ [mkElement (nextAddr l) v]) (S (nextAddr l))).

Fixpoint insert_after (e : Element) (mark : nat) (es : list Element)
  : list Element :=
  match es with
  | [] => []
  | x :: rest =>
      if (addr x =? mark)%nat then x :: e :: rest
      else x :: insert_after e mark rest
  end.

Definition InsertAfter (v : Commit) (mark : nat) (l : List) : nat * List :=
  (nextAddr l,
   mkList (insert_after (mkElement (nextAddr l) v) mark (elems l))
     (S (nextAddr l))).

(** The element at [mark] followed by the chain of its [Next()]s. *)
Fixpoint from_element (mark : nat) (es : list Element) : list Element :=
  match es with
  | [] => []
  | x :: rest => if (addr x =? mark)%nat then es else from_element mark rest
  end.

(** ** commitsBefore *)

(** Where the scan of [commitsBefore] ends: on an element that holds the
    same identifier ([return nil]), on the element to insert after
    ([break]), or on [nil]. *)
Inductive scanned :=
| Present
| After (mark : nat)
| AtNil.

(** The inner [for] loop, on [in] and its successors. *)
Fixpoint scan (c : Commit) (in_ : list Element) : scanned :=
  match in_ with
  | [] => AtNil
  | e :: next =>
      if String.eqb (Id (Value e)) (Id c) then Present
      else
        match next with
        | [] => After (addr e)
        | n :: _ =>
            if When (Value e) =? When c then After (addr e)
            else if (When (Value e) >? When c) && (When (Value n) <? When c)
            then After (addr e)
            else scan c next
        end
  end.

Section Traversal.
Context (ext : Collaborators).

(** The unused [lock] and [limit] parameters are left out.  The result is
    the returned error, the repository and the list as the call leaves
    them.  [InsertAfter] on a nil mark is a nil dereference. *)
Fixpoint commitsBefore (fuel : nat) (l : List) (parent : option nat)
    (id : ObjectID) (repo : Repository)
  : outcome (option error) * Repository * List :=
  match fuel with
  | O => (OutOfFuel, repo, l)
  | S fuel' =>
      match getCommit ext id repo with
      | (Err err, repo) => (Returned (Some err), repo, l)
      | (Ok c, repo) =>
          let inserted :=
            match parent with
            | None => Returned (Some (PushBack c l))
            | Some p =>
                match scan c (from_element p (elems l)) with
                | Present => Returned None
                | After in_ => Returned (Some (InsertAfter c in_ l))
                | AtNil => Panicked
                end
            end in
          match inserted with
          | Returned None => (Returned None, repo, l)
          | Returned (Some (e, l)) =>
              let pr := if (1 <? ParentCount c)%nat then Some e else parent in
              (fix each_parent (is_ : list nat) (repo : Repository) (l : List)
                 : outcome (option error) * Repository * List :=
                 match is_ with
                 | [] => (Returned None, repo, l)
                 | i :: rest =>
                     match ParentId c i with
                     | Err err => (Returned (Some err), repo, l)
                     | Ok id =>
                         match commitsBefore fuel' l pr id repo with
                         | (Returned None, repo, l) => each_parent rest repo l
                         | stopped => stopped
                         end
                     end
                 end) (seq 0 (ParentCount c)) repo l
          | Panicked => (Panicked, repo, l)
          | OutOfFuel => (OutOfFuel, repo, l)
          end
      end
  end.

Definition getCommitsBefore (fuel : nat) (id : ObjectID) (repo : Repository)
  : outcome (option error) * Repository * List :=
  commitsBefore fuel list_New None id repo.

End Traversal.

(** ** Notions the properties are stated with *)

Section Notions.
Context (ext : Collaborators) (repo : Repository).

(** [Indirections p n q]: [n] symbolic refs in a row lead from the path
    [p] to the path [q]. *)
Inductive Indirections : string → nat → string → Prop :=
| Indirections_none p : Indirections p 0 p
| Indirections_hop p f target n q :
    readRef ext repo p = Ok f →
    refRexp_FindSubmatch f = Some target →
    Indirections target n q →
    Indirections p (S n) q.

(** What [getCommit] answers for an identifier. *)
Definition resolve (id : ObjectID) : result Commit := (getCommit ext id repo).1.

(** The first-parent history in the words of the specification:
    [FirstParentWalk before cur l] when [l] is the sequence of commits met
    by starting at [cur] and following the first parent again and again,
    up to and without the commit that has the identifier of [before], or
    up to and with a commit without parents. *)
Inductive FirstParentWalk (before : Commit) : Commit → list Commit → Prop :=
| walk_reached cur :
    Id cur = Id before →
    FirstParentWalk before cur []
| walk_root cur :
    Id cur ≠ Id before →
    parents cur = [] →
    FirstParentWalk before cur [cur]
| walk_parent cur p ps next l :
    Id cur ≠ Id before →
    parents cur = p :: ps →
    resolve p = Ok next →
    FirstParentWalk before next l →
    FirstParentWalk before cur (cur :: l).

End Notions.

(** What a cache miss of [getCommit] computes from the stores, and the
    collaborator calls it makes: the run on a handle with no cache and no
    calls yet. *)
Definition fetchCommit (ext : Collaborators) (root : string)
    (ixs : list idxFile) (id : ObjectID) : result Commit * list Call :=
  let r := getCommit ext id (mkRepo root ixs None []) in (r.1, calls r.2).
Arguments fetchCommit : simpl never.

(** The handle after a series of [getCommit] calls. *)
Fixpoint getCommits (ext : Collaborators) (ids : list ObjectID)
    (repo : Repository) : Repository :=
  match ids with
  | [] => repo
  | id :: rest => getCommits ext rest (getCommit ext id repo).2
  end.

(** ** Fixtures

    Mock collaborators over small tables, and the repositories the worked
    examples run on. *)
Module Fixtures.

Definition assoc {A} (k : string) (l : list (string * A)) : option A :=
  snd <$> List.find (λ p, String.eqb (fst p) k) l.

Definition join (a b : string) : string := a +:+ "/" +:+ b.

Definition sha1path (root hex : string) : string :=
  root +:+ "/objects/" +:+ substring 0 2 hex +:+ "/" +:+ substring 2 38 hex.

Definition payload (metaOnly : bool) (o : ObjectType * string)
  : ObjectType * Z * string :=
  (fst o, Z.of_nat (String.length (snd o)),
   if metaOnly then EmptyString else snd o).

(** [files]: the loose ref files by path; [packed]: the lines of
    packed-refs, when the file exists; [loose]: the loose objects by
    identifier; [packs]: the packed objects by archive path and offset;
    [bodies]: what the commit parser makes of a payload. *)
Definition mock (root : string) (files : list (string * string))
    (packed : option (list string))
    (loose : list (ObjectID * (ObjectType * string)))
    (packs : list (string * list (N * (ObjectType * string))))
    (bodies : list (string * Commit)) : Collaborators :=
  {| Join := join;
     ReadFile := λ p,
       match assoc p files with
       | Some content => inr content
       | None => inl (NotExist p)
       end;
     OpenLines := λ p,
       match packed with
       | Some lines => inr (lines, None)
       | None => inl (NotExist p)
       end;
     filepathFromSHA1 := sha1path;
     readObjectFile := λ p metaOnly,
       match assoc p (map (λ o, (sha1path root (ObjectID_String (fst o)), snd o))
                        loose) with
       | Some o => inr (payload metaOnly o)
       | None => inl (NotExist p)
       end;
     readObjectBytes := λ pack _ offset metaOnly,
       match assoc pack packs ≫= λ objs,
             snd <$> List.find (λ o, (fst o =? offset)%N) objs with
       | Some o => inr (payload metaOnly o)
       | None => inl (IOError "bad offset")
       end;
     parseCommitData := λ data,
       match assoc data bodies with
       | Some c => inr c
       | None => inl "malformed commit"%string
       end |}.

Definition emptyRepo (root : string) : Repository := mkRepo root [] None [].

(** A store of loose commits only; the payload of a commit is its message. *)
Definition commitStore (root : string) (cs : list (ObjectID * Commit))
  : Collaborators :=
  mock root [] None
    (map (λ c, (fst c, (ObjectCommit, CommitMessage (snd c)))) cs) []
    (map (λ c, (CommitMessage (snd c), snd c)) cs).

(** Four commits: the merge [M] of [B] and [C], which both have the single
    parent [D].  [B] and [D] carry the same committer timestamp. *)
Definition idM : ObjectID := "MMMMMMMMMMMMMMMMMMMM".
Definition idB : ObjectID := "BBBBBBBBBBBBBBBBBBBB".
Definition idC : ObjectID := "CCCCCCCCCCCCCCCCCCCC".
Definition idD : ObjectID := "DDDDDDDDDDDDDDDDDDDD".

Definition diamond : Collaborators :=
  commitStore "/repo"
    [ (idM, mkCommit EmptyString [idB; idC] 10 "merge");
      (idB, mkCommit EmptyString [idD] 3 "left");
      (idC, mkCommit EmptyString [idD] 5 "right");
      (idD, mkCommit EmptyString [] 3 "root") ].

(** One identifier held by two of three pack indices, and by no loose
    file. *)
Definition idX : ObjectID := "XXXXXXXXXXXXXXXXXXXX".

Definition threePacks : Collaborators :=
  mock "/repo" [] None []
    [ ("pack-1.pack", [(12%N, (ObjectBlob, "one"))]);
      ("pack-2.pack", [(40%N, (ObjectBlob, "two"))]) ] [].

Definition threePacksRepo : Repository :=
  mkRepo "/repo"
    [ mkIdx "pack-0.pack" ∅;
      mkIdx "pack-1.pack" {[ idX := 12%N ]};
      mkIdx "pack-2.pack" {[ idX := 40%N ]} ] None [].

(** Loose refs: HEAD is symbolic, refs/heads/main is direct, and two
    broken files. *)
Definition nl : string := String newline EmptyString.

Definition hexA : string := "aaaaaaaaaaaaaaaaaaaaaaaaaaaaaaaaaaaaaaaa".

Definition looseRefs : Collaborators :=
  mock "/repo"
    [ ("/repo/HEAD", "ref: refs/heads/main" +:+ nl);
      ("/repo/refs/heads/main", hexA +:+ nl);
      ("/repo/refs/heads/short", "aaaa" +:+ nl);
      ("/repo/refs/heads/nothex", "not a hexadecimal identifier at all, no." +:+ nl) ]
    None [] [] [].

(** Two symbolic refs that name each other. *)
Definition cyclicRefs : Collaborators :=
  mock "/repo"
    [ ("/repo/refs/heads/a", "ref: refs/heads/b" +:+ nl);
      ("/repo/refs/heads/b", "ref: refs/heads/a" +:+ nl) ]
    None [] [] [].

(** A packed-refs file: the header comment, a second comment line, and
    the entry of the tag v1. *)
Definition commentLine : string :=
  "#bbbbbbbbbbbbbbbbbbbbbbbbbbbbbbbbbbbbbbb refs/tags/v1".

Definition packedRefs : Collaborators :=
  mock "/repo" []
    (Some [ "# pack-refs with: peeled fully-peeled"%string;
            commentLine;
            hexA +:+ " refs/tags/v1" ])
    [] [] [].

(** Symbolic refs of any depth: a path that starts with an x points to
    the rest of the path, and any other path holds an identifier. *)
Definition ladder : Collaborators :=
  mkCollab join
    (λ p,
       match strip_prefix "/repo/" p with
       | Some (String "x"%char rest) => inr ("ref: " +:+ rest +:+ nl)
       | Some _ => inr (hexA +:+ nl)
       | None => inl (NotExist p)
       end)
    (λ p, inl (NotExist p))
    sha1path
    (λ p _, inl (NotExist p))
    (λ p _ _ _, inl (NotExist p))
    (λ _, inl "malformed commit"%string).

Fixpoint rung (n : nat) : string :=
  match n with
  | O => "refs/heads/main"
  | S n' => String "x"%char (rung n')
  end.

(** A linear history of five commits, k5 the newest. *)
Definition idK (c : ascii) : ObjectID := string_of_list_ascii (repeat c 20).

Definition k5 : Commit := mkCommit (idK "5") [idK "4"] 50 "five".
Definition k4 : Commit := mkCommit (idK "4") [idK "3"] 40 "four".
Definition k3 : Commit := mkCommit (idK "3") [idK "2"] 30 "three".
Definition k2 : Commit := mkCommit (idK "2") [idK "1"] 20 "two".
Definition k1 : Commit := mkCommit (idK "1") [] 10 "one".

Definition chain5 : Collaborators :=
  commitStore "/repo" (map (λ c, (Id c, c)) [k5; k4; k3; k2; k1]).

End Fixtures.

(** ** The public entry points

    [ObjectIDHex], which turns the 40 hex characters into the 20 bytes, is
    defined in another file of the package and is a parameter here. *)
Section EntryPoints.
Context (ext : Collaborators) (ObjectIDHex : string → ObjectID).

Definition GetCommit (commitId : string) (repo : Repository)
  : result Commit * Repository :=
  getCommit ext (ObjectIDHex commitId) repo.

Definition GetCommitOfBranch (fuel : nat) (branchName : string)
    (repo : Repository) : outcome (result Commit) * Repository :=
  match GetCommitIdOfBranch ext fuel repo branchName with
  | Returned (Ok commitId) =>
      match GetCommit commitId repo with
      | (r, repo) => (Returned r, repo)
      end
  | Returned (Err err) => (Returned (Err err), repo)
  | Panicked => (Panicked, repo)
  | OutOfFuel => (OutOfFuel, repo)
  end.

Definition GetCommitOfTag (fuel : nat) (tagName : string)
    (repo : Repository) : outcome (result Commit) * Repository :=
  match GetCommitIdOfTag ext fuel repo tagName with
  | Returned (Ok commitId) =>
      match GetCommit commitId repo with
      | (r, repo) => (Returned r, repo)
      end
  | Returned (Err err) => (Returned (Err err), repo)
  | Panicked => (Panicked, repo)
  | OutOfFuel => (OutOfFuel, repo)
  end.

Definition CommitsBefore (fuel : nat) (commitId : string) (repo : Repository)
  : outcome (option error) * Repository * List :=
  getCommitsBefore ext fuel (ObjectIDHex commitId) repo.

End EntryPoints.

(** ** Further notions *)

(** No white-space byte, and white-space bytes only. *)
Fixpoint noSpace (s : string) : bool :=
  match s with
  | EmptyString => true
  | String c rest => negb (isSpace c) && noSpace rest
  end.


(** The character [c] does not occur in [s]. *)
Fixpoint without (c : ascii) (s : string) : bool :=
  match s with
  | EmptyString => true
  | String x rest => negb (Ascii.eqb x c) && without c rest
  end.

Section MoreNotions.
Context (ext : Collaborators) (repo : Repository).

(** [FirstParentBreak before cur n e]: following first parents from [cur],
    none of the first [n + 1] commits has the identifier of [before], and
    the first parent of the last of them cannot be fetched: [getCommit]
    fails on it with [e]. *)
Inductive FirstParentBreak (before : Commit) : Commit → nat → error → Prop :=
| break_here cur p ps e :
    Id cur ≠ Id before →
    parents cur = p :: ps →
    resolve ext repo p = Err e →
    FirstParentBreak before cur 0 e
| break_later cur p ps next n e :
    Id cur ≠ Id before →
    parents cur = p :: ps →
    resolve ext repo p = Ok next →
    FirstParentBreak before next n e →
    FirstParentBreak before cur (S n) e.

(** [LinearHistory c l]: [l] is [c] followed by its ancestors, each commit
    having exactly one parent and the last one none. *)
Inductive LinearHistory : Commit → list Commit → Prop :=
| linear_root c :
    parents c = [] →
    LinearHistory c [c]
| linear_parent c p next l :
    parents c = [p] →
    resolve ext repo p = Ok next →
    LinearHistory next l →
    LinearHistory c (c :: l).

End MoreNotions.

(** The anchor of a [commitsBefore] call is [nil] or an element of the
    list. *)
Definition anchored (parent : option nat) (l : List) : Prop :=
  match parent with
  | None => True
  | Some p => p ∈ map addr (elems l)
  end.

(** The loop of [commitsBefore] over the parents, as a function of the
    recursive call. *)
Definition eachParent
    (rec : List → option nat → ObjectID → Repository →
           outcome (option error) * Repository * List)
    (c : Commit) (pr : option nat)
  : list nat → Repository → List → outcome (option error) * Repository * List :=
  fix each_parent (is_ : list nat) (repo : Repository) (l : List) :=
    match is_ with
    | [] => (Returned None, repo, l)
    | i :: rest =>
        match ParentId c i with
        | Err err => (Returned (Some err), repo, l)
        | Ok id =>
            match rec l pr id repo with
            | (Returned None, repo, l) => each_parent rest repo l
            | stopped => stopped
            end
        end
    end.

(** What one [commitsBefore] call, and the calls it makes, keep. *)
Definition keeps (l : List)
    (run : outcome (option error) * Repository * List) : Prop :=
  run.1.1 ≠ Panicked ∧
  elems l `sublist_of` elems run.2 ∧
  (elems l ≠ [] → head (elems run.2) = head (elems l)).

(** Fixtures of the further properties. *)
Module MoreFixtures.

(** HEAD names a branch that has neither a loose file nor a packed
    entry; there is no packed-refs file. *)
Definition danglingRefs : Collaborators :=
  Fixtures.mock "/repo"
    [ ("/repo/HEAD", "ref: refs/heads/gone" +:+ Fixtures.nl) ] None [] [] [].

(** No loose ref file; packed-refs holds a header, a broken line, the
    tag v1 with its annotation line, and a second entry of the tag. *)
Definition hexC : string := "cccccccccccccccccccccccccccccccccccccccc".

Definition packedOnly : Collaborators :=
  Fixtures.mock "/repo" []
    (Some [ "# pack-refs with: peeled fully-peeled"%string;
            "one two three"%string;
            Fixtures.hexA +:+ " refs/tags/v1";
            "^" +:+ hexC;
            hexC +:+ " refs/tags/v1" ])
    [] [] [].

(** A branch and a tag that name the root commit of the diamond, on the
    object store of the diamond. *)
Definition hexD : string := ObjectID_String Fixtures.idD.

Definition namedDiamond : Collaborators :=
  mkCollab (Join Fixtures.diamond)
    (λ p,
       if String.eqb p "/repo/refs/heads/main" then inr (hexD +:+ Fixtures.nl)
       else if String.eqb p "/repo/refs/tags/v1" then inr (hexD +:+ Fixtures.nl)
       else inl (NotExist p))
    (OpenLines Fixtures.diamond)
    (filepathFromSHA1 Fixtures.diamond)
    (readObjectFile Fixtures.diamond)
    (readObjectBytes Fixtures.diamond)
    (parseCommitData Fixtures.diamond).

(** A loose ref file with an identifier on its first line and a symbolic
    ref on its second. *)
Definition twoLines : Collaborators :=
  Fixtures.mock "/repo"
    [ ("/repo/refs/heads/odd",
       hexC +:+ Fixtures.nl +:+ "ref: refs/heads/main" +:+ Fixtures.nl);
      ("/repo/refs/heads/main", Fixtures.hexA +:+ Fixtures.nl) ]
    None [] [] [].

(** The three newest commits of the linear history, as a traversal that
    started at the newest would have listed them. *)
Definition threeListed : List :=
  mkList [ mkElement 0 Fixtures.k5; mkElement 1 Fixtures.k4;
           mkElement 2 Fixtures.k3 ] 3.

(** Hex decoding, for the [ObjectIDHex] parameter. *)
Definition hexval (c : ascii) : N :=
  let n := N_of_ascii c in
  (if n <? 58 then n - 48 else if n <? 71 then n - 55 else n - 87)%N.

Fixpoint fromHex (s : string) : ObjectID :=
  match s with
  | String a (String b rest) =>
      String (ascii_of_N (16 * hexval a + hexval b)) (fromHex rest)
  | _ => EmptyString
  end.

End MoreFixtures.

(** * Properties *)

(** ** Object resolution *)

Lemma findObjectPack_None (ixs : list idxFile) (id : ObjectID) :
  findObjectPack ixs id = None ↔
  ∀ idx, idx ∈ ixs → offsetValues idx !! id = None.
Proof.
  induction ixs as [|ix ixs IH]; simpl.
  - split; [intros _ idx Hin; inversion Hin | done].
  - destruct (offsetValues ix !! id) as [off|] eqn:Hix.
    + split; [done|]. intros H. rewrite (H ix) in Hix; [done | left].
    + rewrite IH. split.
      * intros H idx Hin. apply elem_of_cons in Hin as [->|Hin]; auto.
      * intros H idx Hin. apply H. by right.
Qed.

Lemma findObjectPack_first (pre post : list idxFile) (idx : idxFile)
    (id : ObjectID) (off : N) :
  (∀ i, i ∈ pre → offsetValues i !! id = None) →
  offsetValues idx !! id = Some off →
  findObjectPack (pre ++ idx :: post) id = Some (idx, off).
Proof.
  intros Hpre Hidx. induction pre as [|i pre IH]; simpl.
  - by rewrite Hidx.
  - rewrite (Hpre i); [|left]. apply IH. intros j Hj. apply Hpre. by right.
Qed.

(** C10. [ObjectType.String] names the commit, tree and blob types and
    answers the empty string for the tag type and for every other value. *)
Theorem ObjectType_String_values :
  ObjectType_String ObjectCommit = "commit"%string ∧
  ObjectType_String ObjectTree = "tree"%string ∧
  ObjectType_String ObjectBlob = "blob"%string ∧
  ObjectType_String ObjectTag = EmptyString ∧
  ∀ t : ObjectType,
    t ≠ ObjectCommit → t ≠ ObjectTree → t ≠ ObjectBlob →
    ObjectType_String t = EmptyString.
Proof.
  repeat split; try reflexivity.
  intros t Hc Ht Hb. unfold ObjectType_String.
  destruct (Z.eqb_spec t ObjectCommit); [done|].
  destruct (Z.eqb_spec t ObjectTree); [done|].
  destruct (Z.eqb_spec t ObjectBlob); done.
Qed.

Lemma ObjectType_String_values_witness :
  ObjectType_String 0x50 = EmptyString.
Proof.
  destruct ObjectType_String_values as (_ & _ & _ & _ & H).
  apply (H 0x50); unfold ObjectCommit, ObjectTree, ObjectBlob; lia.
Defined.

(** C3. [getRawObject] is loose-first.  When the loose read succeeds, its
    type, size and data are returned as they are and no pack is read; when
    it fails with an error other than not-exist, that error is returned and
    no pack is read; when it fails with not-exist, the first index of
    [indexfiles], in order, whose mapping holds the identifier gives the
    archive path and the offset that are decoded. *)
Theorem getRawObject_loose_first (ext : Collaborators) (repo : Repository)
    (id : ObjectID) (metaOnly : bool) :
  let path := loosePath ext repo id in
  let looseCall := CallReadObjectFile path metaOnly in
  (∀ ot len data,
     readObjectFile ext path metaOnly = inr (ot, len, data) →
     (getRawObject ext id metaOnly repo).1 = Ok (mkObject ot len data) ∧
     calls (getRawObject ext id metaOnly repo).2 = calls repo ++ [looseCall]) ∧
  (∀ msg,
     readObjectFile ext path metaOnly = inl (IOError msg) →
     (getRawObject ext id metaOnly repo).1 = Err (IO (IOError msg)) ∧
     calls (getRawObject ext id metaOnly repo).2 = calls repo ++ [looseCall]) ∧
  (∀ p pre idx post off,
     readObjectFile ext path metaOnly = inl (NotExist p) →
     indexfiles repo = pre ++ idx :: post →
     (∀ i, i ∈ pre → offsetValues i !! id = None) →
     offsetValues idx !! id = Some off →
     (getRawObject ext id metaOnly repo).1 =
       match readObjectBytes ext (packpath idx) (indexfiles repo) off metaOnly with
       | inr (ot, len, data) => Ok (mkObject ot len data)
       | inl e => Err (IO e)
       end ∧
     calls (getRawObject ext id metaOnly repo).2 =
       calls repo ++ [looseCall; CallReadObjectBytes (packpath idx) off metaOnly]).
Proof.
  intros path looseCall. unfold getRawObject. fold path. split; [|split].
  - intros ot len data Hloose. by rewrite Hloose.
  - intros msg Hloose. by rewrite Hloose.
  - intros p pre idx post off Hloose Hix Hpre Hidx.
    rewrite Hloose. simpl. rewrite Hix.
    rewrite (findObjectPack_first pre post idx id off Hpre Hidx).
    rewrite <- Hix.
    destruct (readObjectBytes ext (packpath idx) (indexfiles repo) off metaOnly)
      as [e|[[ot len] data]]; simpl; by rewrite <- app_assoc.
Qed.

Lemma getRawObject_loose_first_witness :
  (getRawObject Fixtures.threePacks Fixtures.idX false Fixtures.threePacksRepo).1
  = Ok (mkObject ObjectBlob 3 "one").
Proof.
  pose proof (getRawObject_loose_first Fixtures.threePacks
                Fixtures.threePacksRepo Fixtures.idX false) as (_ & _ & H).
  destruct (H "/repo/objects/58/58585858585858585858585858585858585858"%string
              [mkIdx "pack-0.pack" ∅] (mkIdx "pack-1.pack" {[ Fixtures.idX := 12%N ]})
              [mkIdx "pack-2.pack" {[ Fixtures.idX := 40%N ]}] 12%N) as [Hres _].
  - reflexivity.
  - reflexivity.
  - intros i Hi. apply list_elem_of_singleton in Hi as ->. reflexivity.
  - reflexivity.
  - exact Hres.
Defined.

(** C4. [getRawObject] fails with [ObjectNotFound] exactly when the loose
    read fails with not-exist and no pack index holds the identifier, and
    the error then carries the queried identifier; a loose read error other
    than not-exist is returned as it is. *)
Theorem getRawObject_ObjectNotFound (ext : Collaborators) (repo : Repository)
    (id : ObjectID) (metaOnly : bool) :
  (∀ id',
     (getRawObject ext id metaOnly repo).1 = Err (ObjectNotFound id') ↔
     id' = id ∧
     (∃ p, readObjectFile ext (loosePath ext repo id) metaOnly = inl (NotExist p)) ∧
     (∀ idx, idx ∈ indexfiles repo → offsetValues idx !! id = None)) ∧
  (∀ msg,
     readObjectFile ext (loosePath ext repo id) metaOnly = inl (IOError msg) →
     (getRawObject ext id metaOnly repo).1 = Err (IO (IOError msg))).
Proof.
  unfold getRawObject. split.
  - intros id'.
    destruct (readObjectFile ext (loosePath ext repo id) metaOnly)
      as [[p|msg]|[[ot len] data]]; simpl.
    + destruct (findObjectPack (indexfiles repo) id) as [[pack off]|] eqn:Hfind.
      * split.
        -- destruct (readObjectBytes ext (packpath pack) (indexfiles repo) off metaOnly)
             as [e|[[ot len] data]]; simpl; intros [=].
        -- intros (_ & _ & Hall). apply findObjectPack_None in Hall. congruence.
      * simpl. split.
        -- intros [= ->]. rewrite findObjectPack_None in Hfind. eauto.
        -- by intros (-> & _ & _).
    + split; [intros [=] | intros (_ & [p [=]] & _)].
    + split; [intros [=] | intros (_ & [p [=]] & _)].
  - intros msg H. by rewrite H.
Qed.

Lemma getRawObject_ObjectNotFound_witness :
  (getRawObject Fixtures.diamond Fixtures.idX false (Fixtures.emptyRepo "/repo")).1
  = Err (ObjectNotFound Fixtures.idX).
Proof.
  apply (proj1 (getRawObject_ObjectNotFound Fixtures.diamond
                  (Fixtures.emptyRepo "/repo") Fixtures.idX false)).
  split; [reflexivity|]. split.
  - eexists. reflexivity.
  - intros idx Hin. inversion Hin.
Defined.

(** ** Reference resolution *)

Local Open Scope nat_scope.

Lemma substring_0_prefix (n : nat) (s : string) :
  n ≤ String.length s →
  String.length (substring 0 n s) = n ∧ ∃ rest, s = substring 0 n s +:+ rest.
Proof.
  revert s. induction n as [|n IH]; intros s Hlen.
  - destruct s; simpl; eauto.
  - destruct s as [|c s]; simpl in *; [lia|].
    destruct (IH s) as [Hn [rest Hrest]]; [lia|].
    split; [by rewrite Hn|]. exists rest. by rewrite Hrest at 1.
Qed.

(** A pass that reads a symbolic ref goes on with the captured path. *)
Lemma getCommitIdOfRef_follow (ext : Collaborators) (repo : Repository)
    (p target f : string) (fuel : nat) :
  readRef ext repo p = Ok f →
  refRexp_FindSubmatch f = Some target →
  getCommitIdOfRef ext (S fuel) repo p = getCommitIdOfRef ext fuel repo target.
Proof. intros Hf Hm. simpl. by rewrite Hf, Hm. Qed.

(** C5. When the content read for a ref does not match the symbolic
    pattern, [getCommitIdOfRef] returns its first 40 bytes if there are that
    many and they are valid hex; otherwise it fails with an error that
    says what is wrong, and that is never [RefNotFound]. *)
Theorem getCommitIdOfRef_direct (ext : Collaborators) (repo : Repository)
    (refpath_ f : string) (fuel : nat) :
  readRef ext repo refpath_ = Ok f →
  refRexp_FindSubmatch f = None →
  let id := substring 0 40 f in
  let answer := getCommitIdOfRef ext (S fuel) repo refpath_ in
  (40 ≤ String.length f → IsObjectIDHex id = true →
     answer = Returned (Ok id) ∧
     String.length id = 40%nat ∧ ∃ rest, f = id +:+ rest) ∧
  (String.length f < 40 →
     answer = Returned (Err (errorString "ObjectID hash too short"))) ∧
  (40 ≤ String.length f → IsObjectIDHex id = false →
     answer =
       Returned (Err (errorString ("heads file wrong ObjectID string " +:+ id)))) ∧
  (∀ p, answer ≠ Returned (Err (RefNotFound p))).
Proof.
  intros Hf Hm id answer.
  assert (Ha : answer = Returned (directRef f)).
  { unfold answer. simpl. by rewrite Hf, Hm. }
  rewrite Ha. unfold directRef. fold id. repeat split.
  - destruct (Nat.ltb_spec (String.length f) 40); [lia|]. by rewrite H0.
  - by apply substring_0_prefix.
  - by apply substring_0_prefix.
  - intros Hlt. by destruct (Nat.ltb_spec (String.length f) 40); [|lia].
  - intros Hge Hhex. destruct (Nat.ltb_spec (String.length f) 40); [lia|].
    by rewrite Hhex.
  - intros p. destruct (String.length f <? 40)%nat; [done|].
    by destruct (IsObjectIDHex id).
Qed.

Lemma getCommitIdOfRef_direct_witness :
  getCommitIdOfRef Fixtures.looseRefs 1 (Fixtures.emptyRepo "/repo")
    "refs/heads/main" = Returned (Ok Fixtures.hexA) ∧
  getCommitIdOfRef Fixtures.looseRefs 1 (Fixtures.emptyRepo "/repo")
    "refs/heads/short" = Returned (Err (errorString "ObjectID hash too short")).
Proof.
  split.
  - apply (getCommitIdOfRef_direct Fixtures.looseRefs (Fixtures.emptyRepo "/repo")
             "refs/heads/main" (Fixtures.hexA +:+ Fixtures.nl) 0);
      [reflexivity | reflexivity | vm_compute; lia | reflexivity].
  - apply (getCommitIdOfRef_direct Fixtures.looseRefs (Fixtures.emptyRepo "/repo")
             "refs/heads/short" ("aaaa" +:+ Fixtures.nl) 0);
      [reflexivity | reflexivity | vm_compute; lia].
Defined.

(** [n] indirections cost [n] passes, whatever [n] is. *)
Lemma Indirections_followed (ext : Collaborators) (repo : Repository)
    (p q : string) (n : nat) :
  Indirections ext repo p n q →
  ∀ fuel,
    getCommitIdOfRef ext (n + fuel) repo p = getCommitIdOfRef ext fuel repo q.
Proof.
  induction 1 as [p|p f target n q Hf Hm _ IH]; intros fuel; [done|].
  rewrite Nat.add_succ_l, (getCommitIdOfRef_follow _ _ _ _ _ _ Hf Hm). apply IH.
Qed.

Lemma Indirections_exhaust (ext : Collaborators) (repo : Repository)
    (p q : string) (n : nat) :
  Indirections ext repo p n q →
  ∀ fuel, fuel ≤ n → getCommitIdOfRef ext fuel repo p = OutOfFuel.
Proof.
  induction 1 as [p|p f target n q Hf Hm _ IH]; intros fuel Hle.
  - by replace fuel with 0 by lia.
  - destruct fuel as [|fuel]; [done|].
    rewrite (getCommitIdOfRef_follow _ _ _ _ _ _ Hf Hm). apply IH. lia.
Qed.

Lemma until_newline_app (s : string) :
  until_newline s = None →
  until_newline (s +:+ Fixtures.nl) = Some s.
Proof.
  induction s as [|c s IH]; simpl; [done|].
  destruct (Ascii.eqb c newline); [done|].
  destruct (until_newline s); [done|]. intros _. by rewrite IH.
Qed.

Lemma refRexp_FindSubmatch_here (s capture : string) :
  refRexp_at s = Some capture → refRexp_FindSubmatch s = Some capture.
Proof.
  intros H.
  replace (refRexp_FindSubmatch s) with
    (match refRexp_at s with
     | Some c => Some c
     | None => match s with
               | EmptyString => None
               | String _ rest => refRexp_FindSubmatch rest
               end
     end) by (by destruct s).
  by rewrite H.
Qed.

Lemma rung_one_line (n : nat) : until_newline (Fixtures.rung n) = None.
Proof. induction n as [|n IH]; [done|]. simpl. by rewrite IH. Qed.

Lemma ladder_Indirections (n : nat) :
  Indirections Fixtures.ladder (Fixtures.emptyRepo "/repo")
    (Fixtures.rung n) n (Fixtures.rung 0).
Proof.
  induction n as [|n IH]; [constructor|].
  apply (Indirections_hop _ _ _
           ("ref: " +:+ (Fixtures.rung n +:+ Fixtures.nl)) (Fixtures.rung n));
    [reflexivity | | exact IH].
  apply refRexp_FindSubmatch_here.
  change (until_newline (Fixtures.rung n +:+ Fixtures.nl) = Some (Fixtures.rung n)).
  apply until_newline_app, rung_one_line.
Qed.

(** C2 (as amended). [getCommitIdOfRef] follows symbolic refs without a
    bound: [n] indirections in a row are all followed, in exactly [n]
    passes, for every [n] and every ref graph, and graphs with [n]
    indirections that end in an identifier exist for every [n]. *)
Theorem getCommitIdOfRef_unbounded (n : nat) :
  (∀ ext repo p q,
     Indirections ext repo p n q →
     (∀ fuel,
        getCommitIdOfRef ext (n + fuel) repo p = getCommitIdOfRef ext fuel repo q) ∧
     (∀ fuel, fuel ≤ n → getCommitIdOfRef ext fuel repo p = OutOfFuel)) ∧
  (∃ ext repo p,
     getCommitIdOfRef ext (S n) repo p = Returned (Ok Fixtures.hexA) ∧
     getCommitIdOfRef ext n repo p = OutOfFuel).
Proof.
  split.
  - intros ext repo p q Hind. split.
    + by apply Indirections_followed.
    + by eapply Indirections_exhaust.
  - exists Fixtures.ladder, (Fixtures.emptyRepo "/repo"), (Fixtures.rung n).
    pose proof (ladder_Indirections n) as Hind. split.
    + replace (S n) with (n + 1) by lia.
      by rewrite (Indirections_followed _ _ _ _ _ Hind).
    + by apply (Indirections_exhaust _ _ _ _ _ Hind).
Qed.

Lemma getCommitIdOfRef_unbounded_witness :
  getCommitIdOfRef Fixtures.looseRefs 2 (Fixtures.emptyRepo "/repo") "HEAD"
  = Returned (Ok Fixtures.hexA).
Proof.
  destruct (getCommitIdOfRef_unbounded 1) as [H _].
  destruct (H Fixtures.looseRefs (Fixtures.emptyRepo "/repo")
              "HEAD"%string "refs/heads/main"%string) as [Hrun _].
  - eapply Indirections_hop; [reflexivity | reflexivity | constructor].
  - exact (Hrun 1).
Defined.

(** C2 (as stated) fails: on two symbolic refs that name each other no
    amount of passes makes the call return. *)
Lemma getCommitIdOfRef_cycle_never_returns :
  ¬ ∃ fuel r,
      getCommitIdOfRef Fixtures.cyclicRefs fuel (Fixtures.emptyRepo "/repo")
        "refs/heads/a" = Returned r.
Proof.
  assert (Hloop : ∀ fuel,
    getCommitIdOfRef Fixtures.cyclicRefs fuel (Fixtures.emptyRepo "/repo")
      "refs/heads/a" = OutOfFuel ∧
    getCommitIdOfRef Fixtures.cyclicRefs fuel (Fixtures.emptyRepo "/repo")
      "refs/heads/b" = OutOfFuel).
  { induction fuel as [|fuel [IHa IHb]]; [done|]. split.
    - by rewrite (getCommitIdOfRef_follow _ _ _ "refs/heads/b"
                    ("ref: refs/heads/b" +:+ Fixtures.nl)).
    - by rewrite (getCommitIdOfRef_follow _ _ _ "refs/heads/a"
                    ("ref: refs/heads/a" +:+ Fixtures.nl)). }
  intros (fuel & r & Hret). destruct (Hloop fuel) as [Ha _]. congruence.
Qed.

(** Comment lines that do not have the shape of an entry, annotation
    lines and broken lines are passed over, and the first entry that names
    the path wins. *)
Lemma scanPacked_first_match (pre post : list string) (line path c : string) :
  (∀ l r, l ∈ pre → parseRefLine l = Ok r → refpath r ≠ path) →
  parseRefLine line = Ok (mkPackedRef c path) →
  scanPacked (pre ++ line :: post) path = Some c.
Proof.
  intros Hpre Hline. induction pre as [|l pre IH]; simpl.
  - rewrite Hline. simpl. by rewrite String.eqb_refl.
  - destruct (parseRefLine l) as [r|e] eqn:Hl.
    + destruct (String.eqb_spec (refpath r) path) as [Heq|_].
      * destruct (Hpre l r); [left | done | done].
      * apply IH. intros l' r' Hin. apply Hpre. by right.
    + apply IH. intros l' r' Hin. apply Hpre. by right.
Qed.

Lemma getCommitIdOfPackedRef_absent (ext : Collaborators) (repo : Repository)
    (path p : string) :
  OpenLines ext (Join ext (Path repo) "packed-refs") = inl (NotExist p) →
  getCommitIdOfPackedRef ext repo path = Err ErrNoPackedRefs.
Proof. unfold getCommitIdOfPackedRef. by intros ->. Qed.

(** C6 (failing input). A comment line made of two fields, the first 40
    bytes long and the second starting with refs/, is parsed as an entry:
    the lookup of the tag answers the first field of the comment, the
    entry after it is never reached, and the ref does not resolve. *)
Theorem getCommitIdOfPackedRef_takes_comment_line :
  parseRefLine Fixtures.commentLine =
    Ok (mkPackedRef "#bbbbbbbbbbbbbbbbbbbbbbbbbbbbbbbbbbbbbbb" "refs/tags/v1") ∧
  getCommitIdOfPackedRef Fixtures.packedRefs (Fixtures.emptyRepo "/repo")
    "refs/tags/v1" = Ok "#bbbbbbbbbbbbbbbbbbbbbbbbbbbbbbbbbbbbbbb"%string ∧
  getCommitIdOfRef Fixtures.packedRefs 1 (Fixtures.emptyRepo "/repo")
    "refs/tags/v1" =
    Returned (Err (errorString
      "heads file wrong ObjectID string #bbbbbbbbbbbbbbbbbbbbbbbbbbbbbbbbbbbbbbb")).
Proof. repeat split. Qed.

(** ** The commit cache *)

Lemma getCommit_hit (ext : Collaborators) (repo : Repository) (id : ObjectID)
    (c : Commit) :
  cacheEntries repo !! id = Some c → getCommit ext id repo = (Ok c, repo).
Proof.
  unfold cacheEntries, getCommit. destruct (commitCache repo) as [m|]; simpl.
  - by intros ->.
  - by rewrite lookup_empty.
Qed.

Lemma getCommit_miss (ext : Collaborators) (repo : Repository) (id : ObjectID) :
  cacheEntries repo !! id = None →
  getCommit ext id repo =
    let f := fetchCommit ext (Path repo) (indexfiles repo) id in
    (f.1,
     mkRepo (Path repo) (indexfiles repo)
       (Some match f.1 with
             | Ok c => <[id := c]> (cacheEntries repo)
             | Err _ => cacheEntries repo
             end)
       (calls repo ++ f.2)).
Proof.
  unfold fetchCommit, cacheEntries, getCommit, object, getRawObject, loosePath.
  destruct repo as [root ixs cache cs]. simpl.
  destruct cache as [m|]; simpl; intros Hmiss; rewrite ?Hmiss, ?lookup_empty;
    destruct (readObjectFile ext _ false) as [[p|msg]|[[ot len] data]]; simpl;
    try destruct (findObjectPack ixs id) as [[pack off]|]; simpl;
    try destruct (readObjectBytes ext _ _ _ false) as [e|[[ot len] data]]; simpl;
    try destruct (parseCommitData ext _) as [msg'|c]; simpl;
    unfold record, setCache, cacheEntries; simpl;
    rewrite <- ?app_assoc; reflexivity.
Qed.

Lemma fetchCommit_calls (ext : Collaborators) (root : string)
    (ixs : list idxFile) (id : ObjectID) :
  ∃ rest,
    (fetchCommit ext root ixs id).2 =
      CallReadObjectFile (filepathFromSHA1 ext root (ObjectID_String id)) false
        :: rest.
Proof.
  unfold fetchCommit, getCommit, object, getRawObject, loosePath. simpl.
  destruct (readObjectFile ext _ false) as [[p|msg]|[[ot len] data]]; simpl;
    try destruct (findObjectPack ixs id) as [[pack off]|]; simpl;
    try destruct (readObjectBytes ext _ _ _ false) as [e|[[ot len] data]]; simpl;
    try destruct (parseCommitData ext _) as [msg'|c]; simpl; eauto.
Qed.

Opaque fetchCommit.

Lemma getCommit_keeps (ext : Collaborators) (repo : Repository)
    (id k : ObjectID) (c : Commit) :
  cacheEntries repo !! k = Some c →
  cacheEntries (getCommit ext id repo).2 !! k = Some c.
Proof.
  intros Hk. destruct (cacheEntries repo !! id) as [c'|] eqn:Hid.
  - by rewrite (getCommit_hit _ _ _ _ Hid).
  - rewrite (getCommit_miss _ _ _ Hid). unfold cacheEntries at 1. cbn.
    destruct (fetchCommit ext (Path repo) (indexfiles repo) id).1; [|done].
    rewrite lookup_insert_ne; [done | congruence].
Qed.

Lemma getCommit_ok_cached (ext : Collaborators) (repo repo' : Repository)
    (id : ObjectID) (c : Commit) :
  getCommit ext id repo = (Ok c, repo') → cacheEntries repo' !! id = Some c.
Proof.
  destruct (cacheEntries repo !! id) as [c'|] eqn:Hid.
  - rewrite (getCommit_hit _ _ _ _ Hid). congruence.
  - rewrite (getCommit_miss _ _ _ Hid). cbn. intros [= Hf <-].
    unfold cacheEntries. cbn. rewrite Hf. apply lookup_insert_eq.
Qed.

Lemma getCommits_keeps (ext : Collaborators) (ids : list ObjectID)
    (repo : Repository) (k : ObjectID) (c : Commit) :
  cacheEntries repo !! k = Some c →
  cacheEntries (getCommits ext ids repo) !! k = Some c.
Proof.
  revert repo. induction ids as [|id ids IH]; intros repo Hk; [done|].
  simpl. by apply IH, getCommit_keeps.
Qed.

(** C7. [getCommit] is idempotent per identifier.  After a successful
    call the cache holds the returned record under the identifier, and it
    holds that same record after any further calls of [getCommit]; every
    later call for the identifier returns the record and leaves the handle
    as it is, so that it calls neither the object decoders nor the commit
    parser. *)
Theorem getCommit_idempotent (ext : Collaborators) (repo repo' : Repository)
    (id : ObjectID) (c : Commit) :
  getCommit ext id repo = (Ok c, repo') →
  ∀ ids,
    let later := getCommits ext ids repo' in
    cacheEntries later !! id = Some c ∧
    getCommit ext id later = (Ok c, later) ∧
    calls (getCommit ext id later).2 = calls later.
Proof.
  intros Hget ids later.
  assert (Hc : cacheEntries later !! id = Some c).
  { apply getCommits_keeps. by eapply getCommit_ok_cached. }
  split; [done|]. by rewrite (getCommit_hit _ _ _ _ Hc).
Qed.

Lemma getCommit_idempotent_witness :
  let repo1 := (getCommit Fixtures.diamond Fixtures.idD
                  (Fixtures.emptyRepo "/repo")).2 in
  getCommit Fixtures.diamond Fixtures.idD repo1 =
    (Ok (mkCommit Fixtures.idD [] 3 "root"), repo1).
Proof.
  intros repo1.
  apply (getCommit_idempotent Fixtures.diamond (Fixtures.emptyRepo "/repo") repo1
           Fixtures.idD (mkCommit Fixtures.idD [] 3 "root") eq_refl []).
Defined.

(** C9. [getCommit] is atomic on failure.  A failing call leaves the
    entries of the cache as they were, with none for the identifier, and
    the stores untouched; the next call for the identifier goes to the
    loose-object decoder again, makes the same collaborator calls and
    fails in the same way. *)
Theorem getCommit_failure_atomic (ext : Collaborators) (repo repo' : Repository)
    (id : ObjectID) (e : error) :
  getCommit ext id repo = (Err e, repo') →
  cacheEntries repo' = cacheEntries repo ∧
  cacheEntries repo' !! id = None ∧
  Path repo' = Path repo ∧
  indexfiles repo' = indexfiles repo ∧
  ∃ rest repo'',
    let attempt := CallReadObjectFile (loosePath ext repo id) false :: rest in
    calls repo' = calls repo ++ attempt ∧
    getCommit ext id repo' = (Err e, repo'') ∧
    calls repo'' = calls repo' ++ attempt ∧
    cacheEntries repo'' = cacheEntries repo.
Proof.
  destruct (cacheEntries repo !! id) as [c'|] eqn:Hid.
  { by rewrite (getCommit_hit _ _ _ _ Hid). }
  rewrite (getCommit_miss _ _ _ Hid). cbn. intros [= Hf <-].
  rewrite Hf. unfold cacheEntries at 1 2. cbn.
  destruct (fetchCommit_calls ext (Path repo) (indexfiles repo) id) as [rest Hcalls].
  repeat split; try done.
  exists rest. eexists. cbn.
  rewrite getCommit_miss by done. cbn. rewrite Hf. unfold loosePath.
  rewrite <- Hcalls. repeat split; done.
Qed.

Lemma getCommit_failure_atomic_witness :
  cacheEntries (getCommit Fixtures.diamond Fixtures.idX
                  (Fixtures.emptyRepo "/repo")).2 = ∅.
Proof.
  destruct (getCommit Fixtures.diamond Fixtures.idX (Fixtures.emptyRepo "/repo"))
    as [r repo'] eqn:Hget.
  assert (Hr : r = Err (ObjectNotFound Fixtures.idX)).
  { change r with (r, repo').1. by rewrite <- Hget. }
  subst r.
  destruct (getCommit_failure_atomic _ _ _ _ _ Hget) as [Hsame _].
  exact Hsame.
Defined.

(** ** First-parent history *)

Lemma resolve_lookup (ext : Collaborators) (repo : Repository) (id : ObjectID) :
  resolve ext repo id =
    match cacheEntries repo !! id with
    | Some c => Ok c
    | None => (fetchCommit ext (Path repo) (indexfiles repo) id).1
    end.
Proof.
  unfold resolve. destruct (cacheEntries repo !! id) as [c|] eqn:Hid.
  - by rewrite (getCommit_hit _ _ _ _ Hid).
  - by rewrite (getCommit_miss _ _ _ Hid).
Qed.

(** What [getCommit] answers for an identifier does not change as the
    cache fills. *)
Lemma resolve_getCommit (ext : Collaborators) (repo : Repository)
    (id1 id2 : ObjectID) :
  resolve ext (getCommit ext id1 repo).2 id2 = resolve ext repo id2.
Proof.
  destruct (cacheEntries repo !! id1) as [c1|] eqn:H1.
  { by rewrite (getCommit_hit _ _ _ _ H1). }
  rewrite !resolve_lookup, (getCommit_miss _ _ _ H1). cbn.
  unfold cacheEntries at 1. cbn.
  destruct (fetchCommit ext (Path repo) (indexfiles repo) id1).1 as [c1|e] eqn:Hf;
    [|done].
  destruct (decide (id1 = id2)) as [<-|Hne].
  - by rewrite lookup_insert_eq, H1, Hf.
  - by rewrite lookup_insert_ne.
Qed.

Lemma CommitsBetween_loop_walk (ext : Collaborators) (repo : Repository)
    (before cur : Commit) (l : list Commit) :
  FirstParentWalk ext repo before cur l →
  ∀ repo' acc fuel,
    (∀ id, resolve ext repo' id = resolve ext repo id) →
    length l < fuel →
    (CommitsBetween_loop ext fuel cur (Some before) acc repo').1
    = Returned (Ok (acc ++ l)).
Proof.
  induction 1 as [cur Heq|cur Hne Hroot|cur p ps next l Hne Hps Hnext _ IH];
    intros repo' acc fuel Hagree Hfuel;
    (destruct fuel as [|fuel]; [simpl in Hfuel; lia|]); simpl.
  - rewrite <- Heq, String.eqb_refl. simpl. by rewrite app_nil_r.
  - destruct (String.eqb_spec (Id cur) (Id before)); [done|].
    unfold ParentCount. by rewrite Hroot.
  - destruct (String.eqb_spec (Id cur) (Id before)); [done|].
    unfold ParentCount, Parent, ParentId. rewrite Hps. simpl.
    pose proof (Hagree p) as Hp. rewrite Hnext in Hp. unfold resolve in Hp.
    pose proof (resolve_getCommit ext repo' p) as Hstable.
    destruct (getCommit ext p repo') as [r repo'']. simpl in Hp, Hstable.
    subst r. rewrite IH.
    + by rewrite <- app_assoc.
    + intros id. by rewrite Hstable.
    + simpl in Hfuel. lia.
Qed.

Lemma FirstParentWalk_excludes (ext : Collaborators) (repo : Repository)
    (before cur : Commit) (l : list Commit) :
  FirstParentWalk ext repo before cur l →
  Forall (λ c, Id c ≠ Id before) l.
Proof. induction 1; auto. Qed.

(** C8. [CommitsBetween] returns the first-parent history of [last] up to
    and without [before]: the commits met by following the first parent
    again and again from [last], newest first, ending before the commit
    with the identifier of [before] or with a commit that has no parents.
    The result is empty when [last] is absent or has no parents. *)
Theorem CommitsBetween_first_parent (ext : Collaborators) (repo : Repository)
    (before : Commit) :
  (∀ fuel,
     (CommitsBetween ext fuel None (Some before) repo).1 = Returned (Ok [])) ∧
  (∀ fuel last,
     parents last = [] →
     (CommitsBetween ext fuel (Some last) (Some before) repo).1
     = Returned (Ok [])) ∧
  (∀ fuel last l,
     parents last ≠ [] →
     FirstParentWalk ext repo before last l →
     length l < fuel →
     (CommitsBetween ext fuel (Some last) (Some before) repo).1
     = Returned (Ok l) ∧
     Forall (λ c, Id c ≠ Id before) l).
Proof.
  split; [done|]. split.
  - intros fuel tip Hroot. unfold CommitsBetween, ParentCount. by rewrite Hroot.
  - intros fuel tip l Hparents Hwalk Hfuel. split.
    + unfold CommitsBetween, ParentCount.
      destruct (parents tip) as [|p ps] eqn:Hps; [done|]. simpl.
      by rewrite (CommitsBetween_loop_walk ext repo before tip l).
    + by eapply FirstParentWalk_excludes.
Qed.

Lemma CommitsBetween_first_parent_witness :
  (CommitsBetween Fixtures.chain5 4 (Some Fixtures.k5) (Some Fixtures.k2)
     (Fixtures.emptyRepo "/repo")).1
  = Returned (Ok [Fixtures.k5; Fixtures.k4; Fixtures.k3]).
Proof.
  destruct (CommitsBetween_first_parent Fixtures.chain5
              (Fixtures.emptyRepo "/repo") Fixtures.k2) as (_ & _ & H).
  destruct (H 4 Fixtures.k5 [Fixtures.k5; Fixtures.k4; Fixtures.k3]) as [Hres _].
  - discriminate.
  - eapply walk_parent; [discriminate | reflexivity | reflexivity |].
    eapply walk_parent; [discriminate | reflexivity | reflexivity |].
    eapply walk_parent; [discriminate | reflexivity | reflexivity |].
    by apply walk_reached.
  - simpl. lia.
  - exact Hres.
Defined.

(** ** Merge-aware ancestry *)

(** C1 (failing input). On the merge [M] of [B] and [C] over the common
    parent [D], where [B] and [D] carry the same committer time, the scan
    for the second visit of [D] stops on [B] before it reaches [D]: [D] is
    inserted a second time. *)
Theorem commitsBefore_inserts_twice :
  let run := getCommitsBefore Fixtures.diamond 10 Fixtures.idM
               (Fixtures.emptyRepo "/repo") in
  run.1.1 = Returned None ∧
  map (λ e, Id (Value e)) (elems run.2) =
    [Fixtures.idM; Fixtures.idC; Fixtures.idB; Fixtures.idD; Fixtures.idD] ∧
  ¬ NoDup (map (λ e, Id (Value e)) (elems run.2)).
Proof.
  assert (Hids :
    map (λ e, Id (Value e))
      (elems (getCommitsBefore Fixtures.diamond 10 Fixtures.idM
                (Fixtures.emptyRepo "/repo")).2) =
    [Fixtures.idM; Fixtures.idC; Fixtures.idB; Fixtures.idD; Fixtures.idD])
    by (vm_compute; reflexivity).
  cbv zeta. split; [vm_compute; reflexivity|]. split; [exact Hids|].
  rewrite Hids. intros Hnd.
  do 3 apply NoDup_cons in Hnd as [_ Hnd].
  apply NoDup_cons in Hnd as [Hin _]. apply Hin. left.
Qed.

(** * Further properties *)

(** ** Object resolution *)

(** [findObjectPack] answers an index and an offset exactly when that
    index is the first one, in order, that holds the identifier, and the
    offset is the one it records. *)
Theorem findObjectPack_Some (ixs : list idxFile) (id : ObjectID)
    (idx : idxFile) (off : N) :
  findObjectPack ixs id = Some (idx, off) ↔
  ∃ pre post,
    ixs = pre ++ idx :: post ∧
    (∀ i, i ∈ pre → offsetValues i !! id = None) ∧
    offsetValues idx !! id = Some off.
Proof.
  split.
  - induction ixs as [|ix ixs IH]; simpl; [done|].
    destruct (offsetValues ix !! id) as [o|] eqn:Hix.
    + intros [= -> ->]. exists [], ixs. split; [done|]. split; [|done].
      intros i Hi. inversion Hi.
    + intros Hfind. destruct (IH Hfind) as (pre & post & -> & Hpre & Hidx).
      exists (ix :: pre), post. split; [done|]. split; [|done].
      intros i Hi. apply elem_of_cons in Hi as [->|Hi]; auto.
  - intros (pre & post & -> & Hpre & Hidx). by apply findObjectPack_first.
Qed.

(** [getRawObject] only reads: its answer depends on the root path and on
    the pack indices alone, not on the commit cache, and it leaves the
    path, the indices and the cache as they are.  It makes one decoder
    call or two. *)
Theorem getRawObject_reads_only (ext : Collaborators) (id : ObjectID)
    (metaOnly : bool) (repo1 repo2 : Repository) :
  Path repo1 = Path repo2 →
  indexfiles repo1 = indexfiles repo2 →
  (getRawObject ext id metaOnly repo1).1 = (getRawObject ext id metaOnly repo2).1 ∧
  Path (getRawObject ext id metaOnly repo1).2 = Path repo1 ∧
  indexfiles (getRawObject ext id metaOnly repo1).2 = indexfiles repo1 ∧
  commitCache (getRawObject ext id metaOnly repo1).2 = commitCache repo1 ∧
  ∃ evs,
    calls (getRawObject ext id metaOnly repo1).2 = calls repo1 ++ evs ∧
    1 ≤ length evs ≤ 2.
Proof.
  intros HP HI. unfold getRawObject, loosePath. simpl. rewrite <- HP, <- HI.
  destruct (readObjectFile ext _ metaOnly) as [[p|msg]|[[ot len] data]]; simpl;
    try destruct (findObjectPack (indexfiles repo1) id) as [[pack off]|]; simpl;
    try destruct (readObjectBytes ext _ _ _ metaOnly) as [e|[[ot len] data]];
    simpl; repeat split; try done;
    rewrite <- ?app_assoc; eexists; (split; [reflexivity | simpl; lia]).
Qed.

Lemma getRawObject_reads_only_witness :
  (getRawObject Fixtures.threePacks Fixtures.idX true Fixtures.threePacksRepo).1
  = (getRawObject Fixtures.threePacks Fixtures.idX true
       (setCache (Some ∅) Fixtures.threePacksRepo)).1.
Proof.
  apply (getRawObject_reads_only Fixtures.threePacks Fixtures.idX true
           Fixtures.threePacksRepo (setCache (Some ∅) Fixtures.threePacksRepo));
    reflexivity.
Defined.

(** ** Lines of packed-refs *)

Lemma append_cons (x : ascii) (a b : string) :
  String x a +:+ b = String x (a +:+ b).
Proof. reflexivity. Qed.

Lemma append_empty_l (b : string) : EmptyString +:+ b = b.
Proof. reflexivity. Qed.


Lemma append_empty_r (a : string) : a +:+ EmptyString = a.
Proof. induction a as [|x a IH]; [done|]. rewrite append_cons. by rewrite IH. Qed.

Lemma noSpace_append (a b : string) :
  noSpace (a +:+ b) = noSpace a && noSpace b.
Proof.
  induction a as [|x a IH]; [done|]. rewrite append_cons. simpl.
  by rewrite IH, andb_assoc.
Qed.

Lemma Fields_from_tokens (s cur : string) :
  noSpace cur = true →
  Forall (λ f, f ≠ EmptyString ∧ noSpace f = true) (Fields_from cur s).
Proof.
  revert cur. induction s as [|c s IH]; intros cur Hcur; simpl.
  - destruct (String.eqb_spec cur EmptyString); auto.
  - destruct (isSpace c) eqn:Hc.
    + destruct (String.eqb_spec cur EmptyString); auto.
    + apply IH. rewrite noSpace_append, Hcur. simpl. by rewrite Hc.
Qed.





Lemma parseRefLine_inv (line : string) (r : packedRef) :
  parseRefLine line = Ok r →
  Fields line = [commit r; refpath r] ∧
  String.length (commit r) = 40 ∧
  HasPrefix (refpath r) "refs/" = true ∧
  noSpace (commit r) = true ∧ noSpace (refpath r) = true.
Proof.
  unfold parseRefLine.
  pose proof (Fields_from_tokens line EmptyString eq_refl) as Htok.
  fold (Fields line) in Htok.
  destruct (Fields line) as [|f0 [|f1 [|f2 fs]]]; try done.
  destruct (Nat.eqb_spec (String.length f0) 40) as [Hlen|]; [|done]. simpl.
  destruct (HasPrefix f1 "refs/") eqn:Hpre; [|done]. simpl.
  intros [= <-]. simpl.
  apply Forall_cons in Htok as [[_ H0] Htok].
  apply Forall_cons in Htok as [[_ H1] _]. done.
Qed.







(** ** Lookup in packed-refs *)

Lemma scanPacked_None (lines : list string) (path : string) :
  scanPacked lines path = None ↔
  ∀ l r, l ∈ lines → parseRefLine l = Ok r → refpath r ≠ path.
Proof.
  induction lines as [|line lines IH]; simpl.
  - split; [intros _ l r Hl; inversion Hl | done].
  - destruct (parseRefLine line) as [r|e] eqn:Hline.
    + destruct (String.eqb_spec (refpath r) path) as [Heq|Hne].
      * split; [done|]. intros H. destruct (H line r); [left | done | done].
      * rewrite IH. split.
        -- intros H l r' Hl. apply elem_of_cons in Hl as [->|Hl]; [|by eauto].
           congruence.
        -- intros H l r' Hl. apply H. by right.
    + rewrite IH. split.
      * intros H l r' Hl. apply elem_of_cons in Hl as [->|Hl]; [|by eauto].
        congruence.
      * intros H l r' Hl. apply H. by right.
Qed.

Lemma scanPacked_Some (lines : list string) (path c : string) :
  scanPacked lines path = Some c ↔
  ∃ pre line post,
    lines = pre ++ line :: post ∧
    parseRefLine line = Ok (mkPackedRef c path) ∧
    ∀ l r, l ∈ pre → parseRefLine l = Ok r → refpath r ≠ path.
Proof.
  split.
  - induction lines as [|line lines IH]; simpl; [done|].
    destruct (parseRefLine line) as [r|e] eqn:Hline.
    + destruct (String.eqb_spec (refpath r) path) as [Heq|Hne].
      * intros [= <-]. exists [], line, lines. destruct r as [c' p']. simpl in *.
        subst p'. split; [done|]. split; [done|]. intros l r Hl. inversion Hl.
      * intros Hrest. destruct (IH Hrest) as (pre & l0 & post & -> & Hl0 & Hpre).
        exists (line :: pre), l0, post. split; [done|]. split; [done|].
        intros l r' Hl. apply elem_of_cons in Hl as [->|Hl]; [|by eauto].
        congruence.
    + intros Hrest. destruct (IH Hrest) as (pre & l0 & post & -> & Hl0 & Hpre).
      exists (line :: pre), l0, post. split; [done|]. split; [done|].
      intros l r' Hl. apply elem_of_cons in Hl as [->|Hl]; [|by eauto].
      congruence.
  - intros (pre & line & post & -> & Hline & Hpre).
    by apply scanPacked_first_match.
Qed.

(** When packed-refs can be opened, the lookup succeeds exactly when some
    line parses as an entry of the path, and it answers the first field of
    the first such line; a scanner error behind that line does not
    matter. *)
Theorem getCommitIdOfPackedRef_Ok (ext : Collaborators) (repo : Repository)
    (path c : string) (lines : list string) (scanErr : option ioerror) :
  OpenLines ext (Join ext (Path repo) "packed-refs") = inr (lines, scanErr) →
  getCommitIdOfPackedRef ext repo path = Ok c ↔
  ∃ pre line post,
    lines = pre ++ line :: post ∧
    parseRefLine line = Ok (mkPackedRef c path) ∧
    ∀ l r, l ∈ pre → parseRefLine l = Ok r → refpath r ≠ path.
Proof.
  intros Hopen. unfold getCommitIdOfPackedRef. rewrite Hopen.
  rewrite <- scanPacked_Some.
  destruct (scanPacked lines path) as [c'|]; [split; congruence|].
  destruct scanErr; split; congruence.
Qed.

Lemma getCommitIdOfPackedRef_Ok_witness :
  getCommitIdOfPackedRef MoreFixtures.packedOnly (Fixtures.emptyRepo "/repo")
    "refs/tags/v1" = Ok Fixtures.hexA.
Proof.
  apply (getCommitIdOfPackedRef_Ok MoreFixtures.packedOnly
           (Fixtures.emptyRepo "/repo") "refs/tags/v1" Fixtures.hexA _ None eq_refl).
  exists [ "# pack-refs with: peeled fully-peeled"%string; "one two three"%string ],
    (Fixtures.hexA +:+ " refs/tags/v1"),
    [ "^" +:+ MoreFixtures.hexC; MoreFixtures.hexC +:+ " refs/tags/v1" ].
  split; [reflexivity|]. split; [reflexivity|].
  intros l r Hl.
  apply elem_of_cons in Hl as [->|Hl]; [discriminate|].
  apply list_elem_of_singleton in Hl as ->. discriminate.
Defined.

(** When packed-refs can be opened and no line parses as an entry of the
    path, the lookup fails with the scanner's error if there is one, and
    with [RefNotFound] of the path otherwise. *)
Theorem getCommitIdOfPackedRef_no_entry (ext : Collaborators)
    (repo : Repository) (path : string) (lines : list string)
    (scanErr : option ioerror) :
  OpenLines ext (Join ext (Path repo) "packed-refs") = inr (lines, scanErr) →
  (∀ l r, l ∈ lines → parseRefLine l = Ok r → refpath r ≠ path) →
  getCommitIdOfPackedRef ext repo path =
    match scanErr with
    | Some err => Err (IO err)
    | None => Err (RefNotFound path)
    end.
Proof.
  intros Hopen Hnone. unfold getCommitIdOfPackedRef. rewrite Hopen.
  apply scanPacked_None in Hnone. by rewrite Hnone.
Qed.

Lemma getCommitIdOfPackedRef_no_entry_witness :
  getCommitIdOfPackedRef Fixtures.packedRefs (Fixtures.emptyRepo "/repo")
    "refs/tags/v2" = Err (RefNotFound "refs/tags/v2").
Proof.
  apply (getCommitIdOfPackedRef_no_entry Fixtures.packedRefs
           (Fixtures.emptyRepo "/repo") "refs/tags/v2" _ None eq_refl).
  intros l r Hl.
  apply elem_of_cons in Hl as [->|Hl]; [discriminate|].
  apply elem_of_cons in Hl as [->|Hl]; [intros [= <-]; discriminate|].
  apply list_elem_of_singleton in Hl as ->. intros [= <-]. discriminate.
Defined.

(** What the lookup answers is 40 bytes without white space, and only a
    path that starts with refs/ is ever found: a path such as HEAD is
    not, whatever the file holds. *)
Theorem getCommitIdOfPackedRef_shape (ext : Collaborators) (repo : Repository)
    (path c : string) :
  getCommitIdOfPackedRef ext repo path = Ok c →
  String.length c = 40 ∧ noSpace c = true ∧ HasPrefix path "refs/" = true.
Proof.
  unfold getCommitIdOfPackedRef.
  destruct (OpenLines ext _) as [[x|msg]|[lines scanErr]]; try done.
  destruct (scanPacked lines path) as [c'|] eqn:Hscan;
    [|by destruct scanErr].
  intros [= ->]. apply scanPacked_Some in Hscan as (pre & line & post & _ & Hline & _).
  apply parseRefLine_inv in Hline. simpl in Hline. tauto.
Qed.

Lemma getCommitIdOfPackedRef_shape_witness :
  String.length Fixtures.hexA = 40.
Proof.
  apply (getCommitIdOfPackedRef_shape MoreFixtures.packedOnly
           (Fixtures.emptyRepo "/repo") "refs/tags/v1" Fixtures.hexA eq_refl).
Defined.

(** ** Resolution of a ref *)

Lemma refRexp_FindSubmatch_unfold (s : string) :
  refRexp_FindSubmatch s =
    match refRexp_at s with
    | Some capture => Some capture
    | None =>
        match s with
        | EmptyString => None
        | String _ rest => refRexp_FindSubmatch rest
        end
    end.
Proof. by destruct s. Qed.

Lemma strip_prefix_Some (pre s t : string) :
  strip_prefix pre s = Some t → s = pre +:+ t.
Proof.
  revert s. induction pre as [|a pre IH]; intros s; simpl;
    [by intros [= ->]|].
  destruct s as [|b s]; [done|].
  destruct (Ascii.eqb_spec a b) as [->|]; [|done].
  intros H. rewrite append_cons. by rewrite (IH _ H).
Qed.

Lemma refRexp_at_blank (s : string) :
  without " " s = true → refRexp_at s = None.
Proof.
  intros Hs. unfold refRexp_at.
  destruct (strip_prefix "ref: " s) as [t|] eqn:Hpre; [|done].
  apply strip_prefix_Some in Hpre. subst s.
  rewrite !append_cons, append_empty_l in Hs. by simpl in Hs.
Qed.

(** Content without a blank does not match the symbolic pattern. *)
Lemma refRexp_FindSubmatch_blank (s : string) :
  without " " s = true → refRexp_FindSubmatch s = None.
Proof.
  induction s as [|c s IH]; intros Hs.
  - reflexivity.
  - rewrite refRexp_FindSubmatch_unfold, (refRexp_at_blank _ Hs).
    simpl in Hs. apply andb_prop in Hs as [_ Hs]. auto.
Qed.

Lemma without_append (c : ascii) (a b : string) :
  without c (a +:+ b) = without c a && without c b.
Proof.
  induction a as [|x a IH]; [done|]. rewrite append_cons. simpl.
  by rewrite IH, andb_assoc.
Qed.

Lemma noSpace_without_blank (s : string) :
  noSpace s = true → without " " s = true.
Proof.
  induction s as [|c s IH]; simpl; [done|]. intros H.
  apply andb_prop in H as [Hc Hs]. rewrite (IH Hs), andb_true_r.
  by destruct (Ascii.eqb_spec c " ") as [->|].
Qed.

Lemma allHex_without_blank (s : string) :
  allHex s = true → without " " s = true.
Proof.
  induction s as [|c s IH]; simpl; [done|]. intros H.
  apply andb_prop in H as [Hc Hs]. rewrite (IH Hs), andb_true_r.
  by destruct (Ascii.eqb_spec c " ") as [->|].
Qed.

Lemma length_append (a b : string) :
  String.length (a +:+ b) = String.length a + String.length b.
Proof.
  induction a as [|x a IH]; [done|]. rewrite append_cons. simpl. by rewrite IH.
Qed.

Lemma substring_append (a b : string) :
  substring 0 (String.length a) (a +:+ b) = a.
Proof.
  induction a as [|x a IH]; [by destruct b|]. rewrite append_cons. simpl.
  by rewrite IH.
Qed.

Lemma directRef_hex (f id : string) :
  directRef f = Ok id → IsObjectIDHex id = true.
Proof.
  unfold directRef. destruct (String.length f <? 40); [done|].
  destruct (IsObjectIDHex (substring 0 40 f)) eqn:Hhex; [|done].
  simpl. by intros [= <-].
Qed.

(** What the direct branch makes of content that starts with an
    identifier. *)
Lemma directRef_id (id rest : string) :
  IsObjectIDHex id = true → directRef (id +:+ rest) = Ok id.
Proof.
  intros Hhex. pose proof Hhex as Hlen. unfold IsObjectIDHex in Hlen.
  apply andb_prop in Hlen as [Hlen _]. apply Nat.eqb_eq in Hlen.
  unfold directRef. rewrite length_append, Hlen.
  destruct (Nat.ltb_spec (40 + String.length rest) 40); [lia|].
  replace (substring 0 40 (id +:+ rest)) with id
    by (rewrite <- Hlen; by rewrite substring_append).
  by rewrite Hhex.
Qed.

Lemma getCommitIdOfRef_hex_of_Ok (ext : Collaborators) (repo : Repository)
    (fuel : nat) (p id : string) :
  getCommitIdOfRef ext fuel repo p = Returned (Ok id) →
  IsObjectIDHex id = true.
Proof.
  revert p. induction fuel as [|fuel IH]; intros p; simpl; [done|].
  destruct (readRef ext repo p) as [f|e]; [|done].
  destruct (refRexp_FindSubmatch f) as [target|]; [apply IH|].
  intros [= Hd]. by eapply directRef_hex.
Qed.

(** Whenever [getCommitIdOfRef] succeeds, what it answers is 40 hex
    digits, however many indirections were followed and whether the
    content came from a loose file or from packed-refs. *)
Theorem getCommitIdOfRef_answers_hex (ext : Collaborators) (repo : Repository)
    (fuel : nat) (p id : string) :
  getCommitIdOfRef ext fuel repo p = Returned (Ok id) →
  IsObjectIDHex id = true ∧ String.length id = 40 ∧ allHex id = true.
Proof.
  intros Hret. pose proof (getCommitIdOfRef_hex_of_Ok _ _ _ _ _ Hret) as Hhex.
  split; [done|]. unfold IsObjectIDHex in Hhex.
  apply andb_prop in Hhex as [Hlen Hall]. by apply Nat.eqb_eq in Hlen.
Qed.

Lemma getCommitIdOfRef_answers_hex_witness :
  IsObjectIDHex Fixtures.hexA = true.
Proof.
  apply (getCommitIdOfRef_answers_hex Fixtures.looseRefs
           (Fixtures.emptyRepo "/repo") 2 "HEAD" Fixtures.hexA eq_refl).
Defined.

(** [getCommitIdOfRef] never panics, and the errors it returns are
    [RefNotFound], an I/O error or one of its two parse errors: the
    [ErrNoPackedRefs] of the packed lookup does not reach the caller. *)
Theorem getCommitIdOfRef_errors (ext : Collaborators) (repo : Repository)
    (fuel : nat) (p : string) :
  getCommitIdOfRef ext fuel repo p ≠ Panicked ∧
  ∀ e,
    getCommitIdOfRef ext fuel repo p = Returned (Err e) →
    (∃ q, e = RefNotFound q) ∨ (∃ x, e = IO x) ∨
    e = errorString "ObjectID hash too short" ∨
    (∃ id, e = errorString ("heads file wrong ObjectID string " +:+ id)).
Proof.
  revert p. induction fuel as [|fuel IH]; intros p; simpl; [done|].
  destruct (readRef ext repo p) as [f|e0] eqn:Hread.
  - destruct (refRexp_FindSubmatch f) as [target|]; [apply IH|].
    split; [done|]. intros e. unfold directRef.
    destruct (String.length f <? 40); [intros [= <-]; auto|].
    destruct (IsObjectIDHex (substring 0 40 f)); simpl; [done|].
    intros [= <-]. eauto 6.
  - split; [done|]. intros e [= <-]. revert Hread.
    unfold readRef, getCommitIdOfPackedRef.
    destruct (ReadFile ext _) as [[x|msg]|f]; [| intros [= <-]; eauto | done].
    destruct (OpenLines ext _) as [[y|msg]|[lines scanErr]];
      [intros [= <-]; eauto | intros [= <-]; eauto |].
    destruct (scanPacked lines p); [done|].
    destruct scanErr; intros [= <-]; eauto.
Qed.

(** A chain of symbolic refs that ends on a path with no loose file and no
    packed-refs file, or with a packed-refs file that can be read to its
    end and has no entry for it, fails with [RefNotFound] of that last
    path, not of the path asked for. *)
Theorem getCommitIdOfRef_dangling (ext : Collaborators) (repo : Repository)
    (p q x : string) (n fuel : nat) :
  Indirections ext repo p n q →
  ReadFile ext (Join ext (Path repo) q) = inl (NotExist x) →
  (∃ y, OpenLines ext (Join ext (Path repo) "packed-refs") = inl (NotExist y)) ∨
  (∃ lines,
     OpenLines ext (Join ext (Path repo) "packed-refs") = inr (lines, None) ∧
     ∀ l r, l ∈ lines → parseRefLine l = Ok r → refpath r ≠ q) →
  n < fuel →
  getCommitIdOfRef ext fuel repo p = Returned (Err (RefNotFound q)).
Proof.
  intros Hind Hloose Hpacked Hfuel.
  replace fuel with (n + S (fuel - S n)) by lia.
  rewrite (Indirections_followed _ _ _ _ _ Hind). simpl.
  unfold readRef, getCommitIdOfPackedRef. rewrite Hloose.
  destruct Hpacked as [[y ->]|(lines & -> & Hnone)]; [done|].
  apply scanPacked_None in Hnone. by rewrite Hnone.
Qed.

Lemma getCommitIdOfRef_dangling_witness :
  getCommitIdOfRef MoreFixtures.danglingRefs 2 (Fixtures.emptyRepo "/repo") "HEAD"
  = Returned (Err (RefNotFound "refs/heads/gone")).
Proof.
  apply (getCommitIdOfRef_dangling MoreFixtures.danglingRefs
           (Fixtures.emptyRepo "/repo") "HEAD" "refs/heads/gone"
           "/repo/refs/heads/gone" 1 2).
  - eapply Indirections_hop; [reflexivity | reflexivity | constructor].
  - reflexivity.
  - left. by eexists.
  - lia.
Defined.

(** A ref that has no loose file and an entry in packed-refs resolves to
    the first field of that entry when it is 40 hex digits, and fails
    with the wrong-identifier error otherwise; an entry is never taken for
    a symbolic ref and never found too short. *)
Theorem getCommitIdOfRef_packed (ext : Collaborators) (repo : Repository)
    (p c x : string) (fuel : nat) :
  ReadFile ext (Join ext (Path repo) p) = inl (NotExist x) →
  getCommitIdOfPackedRef ext repo p = Ok c →
  getCommitIdOfRef ext (S fuel) repo p =
    Returned (if IsObjectIDHex c then Ok c
              else Err (errorString ("heads file wrong ObjectID string " +:+ c))).
Proof.
  intros Hloose Hpacked. simpl. unfold readRef. rewrite Hloose, Hpacked.
  unfold getCommitIdOfPackedRef in Hpacked.
  destruct (OpenLines ext _) as [[y|msg]|[lines scanErr]]; try done.
  destruct (scanPacked lines p) as [c'|] eqn:Hscan; [|by destruct scanErr].
  injection Hpacked as ->.
  apply scanPacked_Some in Hscan as (pre & line & post & _ & Hline & _).
  apply parseRefLine_inv in Hline as (_ & Hlen & _ & Hc & _). simpl in Hlen, Hc.
  rewrite refRexp_FindSubmatch_blank by by apply noSpace_without_blank.
  unfold directRef. rewrite Hlen. simpl.
  replace (substring 0 40 c) with c; [by destruct (IsObjectIDHex c)|].
  rewrite <- Hlen. rewrite <- (append_empty_r c) at 3.
  by rewrite substring_append.
Qed.

Lemma getCommitIdOfRef_packed_witness :
  getCommitIdOfRef MoreFixtures.packedOnly 1 (Fixtures.emptyRepo "/repo")
    "refs/tags/v1" = Returned (Ok Fixtures.hexA).
Proof.
  apply (getCommitIdOfRef_packed MoreFixtures.packedOnly
           (Fixtures.emptyRepo "/repo") "refs/tags/v1" Fixtures.hexA
           "/repo/refs/tags/v1" 0); reflexivity.
Defined.

(** A chain of symbolic refs that ends on a loose file which starts with
    40 hex digits and goes on without a blank, with a newline for one,
    resolves to those 40 digits. *)
Theorem getCommitIdOfRef_loose_id (ext : Collaborators) (repo : Repository)
    (p q id rest : string) (n fuel : nat) :
  Indirections ext repo p n q →
  ReadFile ext (Join ext (Path repo) q) = inr (id +:+ rest) →
  IsObjectIDHex id = true →
  without " " rest = true →
  n < fuel →
  getCommitIdOfRef ext fuel repo p = Returned (Ok id).
Proof.
  intros Hind Hloose Hhex Hrest Hfuel.
  replace fuel with (n + S (fuel - S n)) by lia.
  rewrite (Indirections_followed _ _ _ _ _ Hind). simpl.
  unfold readRef. rewrite Hloose.
  pose proof Hhex as Hall. unfold IsObjectIDHex in Hall.
  apply andb_prop in Hall as [_ Hall].
  rewrite refRexp_FindSubmatch_blank.
  - by rewrite directRef_id.
  - by rewrite without_append, (allHex_without_blank _ Hall), Hrest.
Qed.

Lemma getCommitIdOfRef_loose_id_witness :
  getCommitIdOfRef Fixtures.looseRefs 2 (Fixtures.emptyRepo "/repo") "HEAD"
  = Returned (Ok Fixtures.hexA).
Proof.
  apply (getCommitIdOfRef_loose_id Fixtures.looseRefs (Fixtures.emptyRepo "/repo")
           "HEAD" "refs/heads/main" Fixtures.hexA Fixtures.nl 1 2).
  - eapply Indirections_hop; [reflexivity | reflexivity | constructor].
  - reflexivity.
  - reflexivity.
  - reflexivity.
  - lia.
Defined.

Lemma until_newline_line (t post : string) :
  until_newline t = None →
  until_newline (t +:+ Fixtures.nl +:+ post) = Some t.
Proof.
  induction t as [|c t IH]; [done|]. rewrite append_cons. simpl.
  destruct (Ascii.eqb c newline); [done|].
  destruct (until_newline t); [done|]. intros _. by rewrite IH.
Qed.

Lemma refRexp_at_before (pre rest : string) :
  pre ≠ EmptyString →
  without " " pre = true →
  refRexp_at (pre +:+ "ref: " +:+ rest) = None.
Proof.
  intros Hne Hblank. unfold refRexp_at.
  destruct (strip_prefix "ref: " (pre +:+ "ref: " +:+ rest)) as [u|] eqn:Hpre;
    [|done].
  apply strip_prefix_Some in Hpre.
  destruct pre as [|a [|b [|c [|d [|e pre]]]]]; [done|..];
    rewrite !append_cons, ?append_empty_l in Hpre;
    injection Hpre; intros; subst; discriminate.
Qed.

Lemma refRexp_FindSubmatch_before (pre rest : string) :
  without " " pre = true →
  refRexp_FindSubmatch (pre +:+ "ref: " +:+ rest)
  = refRexp_FindSubmatch ("ref: " +:+ rest).
Proof.
  induction pre as [|c pre IH]; [done|]. intros Hblank.
  rewrite refRexp_FindSubmatch_unfold, refRexp_at_before by done.
  rewrite append_cons. simpl in Hblank. apply andb_prop in Hblank as [_ Hblank].
  auto.
Qed.

(** The symbolic pattern is looked for anywhere in the content.  A file
    that holds [ref: ], a target and a newline is symbolic, and the target
    is taken as it stands, whatever follows the newline and whatever
    stands before [ref: ], as long as that has no blank: an identifier and
    a newline in front do not make the ref direct. *)
Theorem getCommitIdOfRef_symbolic_anywhere (ext : Collaborators)
    (repo : Repository) (p pre target post : string) (fuel : nat) :
  ReadFile ext (Join ext (Path repo) p)
  = inr (pre +:+ "ref: " +:+ target +:+ Fixtures.nl +:+ post) →
  without " " pre = true →
  until_newline target = None →
  getCommitIdOfRef ext (S fuel) repo p = getCommitIdOfRef ext fuel repo target.
Proof.
  intros Hloose Hpre Htarget.
  apply (getCommitIdOfRef_follow ext repo p target
           (pre +:+ "ref: " +:+ target +:+ Fixtures.nl +:+ post)).
  - unfold readRef. by rewrite Hloose.
  - rewrite refRexp_FindSubmatch_before by done.
    apply refRexp_FindSubmatch_here. unfold refRexp_at.
    rewrite !append_cons, append_empty_l. simpl.
    by apply until_newline_line.
Qed.

Lemma getCommitIdOfRef_symbolic_anywhere_witness :
  getCommitIdOfRef MoreFixtures.twoLines 2 (Fixtures.emptyRepo "/repo")
    "refs/heads/odd"
  = getCommitIdOfRef MoreFixtures.twoLines 1 (Fixtures.emptyRepo "/repo")
      "refs/heads/main".
Proof.
  apply (getCommitIdOfRef_symbolic_anywhere MoreFixtures.twoLines
           (Fixtures.emptyRepo "/repo") "refs/heads/odd"
           (MoreFixtures.hexC +:+ Fixtures.nl) "refs/heads/main" EmptyString 1);
    reflexivity.
Defined.

(** ** The cache over the life of a handle *)

Lemma getCommit_stores (ext : Collaborators) (repo : Repository) (id : ObjectID) :
  Path (getCommit ext id repo).2 = Path repo ∧
  indexfiles (getCommit ext id repo).2 = indexfiles repo ∧
  ∃ evs, calls (getCommit ext id repo).2 = calls repo ++ evs.
Proof.
  destruct (cacheEntries repo !! id) as [c|] eqn:Hid.
  - rewrite (getCommit_hit _ _ _ _ Hid). simpl. repeat split.
    exists []. by rewrite app_nil_r.
  - rewrite (getCommit_miss _ _ _ Hid). cbn. eauto.
Qed.

Transparent fetchCommit.
Lemma fetchCommit_Id (ext : Collaborators) (root : string) (ixs : list idxFile)
    (id : ObjectID) (c : Commit) :
  (fetchCommit ext root ixs id).1 = Ok c → Id c = id.
Proof.
  unfold fetchCommit, getCommit, object, getRawObject, loosePath. simpl.
  destruct (readObjectFile ext _ false) as [[p|msg]|[[ot len] data]]; simpl;
    try destruct (findObjectPack ixs id) as [[pack off]|]; simpl;
    try destruct (readObjectBytes ext _ _ _ false) as [e|[[ot len] data]]; simpl;
    try destruct (parseCommitData ext _) as [msg'|c']; simpl;
    try done; by intros [= <-].
Qed.
Opaque fetchCommit.

Lemma resolve_getCommits (ext : Collaborators) (ids : list ObjectID)
    (repo : Repository) (id : ObjectID) :
  resolve ext (getCommits ext ids repo) id = resolve ext repo id.
Proof.
  revert repo. induction ids as [|i ids IH]; intros repo; [done|].
  simpl. by rewrite IH, resolve_getCommit.
Qed.

(** The cache only grows.  After any series of [getCommit] calls every
    entry that was cached is still cached, with the same record; the root
    path and the pack indices are as before, and the record of
    collaborator calls has only been extended. *)
Theorem getCommits_cache_grows (ext : Collaborators) (ids : list ObjectID)
    (repo : Repository) :
  cacheEntries repo ⊆ cacheEntries (getCommits ext ids repo) ∧
  Path (getCommits ext ids repo) = Path repo ∧
  indexfiles (getCommits ext ids repo) = indexfiles repo ∧
  ∃ evs, calls (getCommits ext ids repo) = calls repo ++ evs.
Proof.
  split.
  { apply map_subseteq_spec. intros k c. apply getCommits_keeps. }
  revert repo. induction ids as [|i ids IH]; intros repo; simpl.
  - repeat split. exists []. by rewrite app_nil_r.
  - destruct (IH (getCommit ext i repo).2) as (HP & HI & evs & Hc).
    destruct (getCommit_stores ext repo i) as (HP' & HI' & evs' & Hc').
    rewrite HP, HI, Hc, HP', HI', Hc'. repeat split.
    exists (evs' ++ evs). by rewrite app_assoc.
Qed.

(** What [getCommit] answers for an identifier, a record or an error, is
    the same before and after any series of [getCommit] calls on the
    handle. *)
Theorem getCommit_answer_stable (ext : Collaborators) (ids : list ObjectID)
    (repo : Repository) (id : ObjectID) :
  (getCommit ext id (getCommits ext ids repo)).1 = (getCommit ext id repo).1.
Proof. apply (resolve_getCommits ext ids repo id). Qed.

(** Records are cached under their own identifier: a record that
    [getCommit] returns on a handle whose entries have this property
    carries the identifier asked for, and the entries of the handle still
    have the property afterwards. *)
Theorem getCommit_Id (ext : Collaborators) (repo repo' : Repository)
    (id : ObjectID) (c : Commit) :
  (∀ k c0, cacheEntries repo !! k = Some c0 → Id c0 = k) →
  getCommit ext id repo = (Ok c, repo') →
  Id c = id ∧ ∀ k c0, cacheEntries repo' !! k = Some c0 → Id c0 = k.
Proof.
  intros Hkeyed. destruct (cacheEntries repo !! id) as [c'|] eqn:Hid.
  - rewrite (getCommit_hit _ _ _ _ Hid). intros [= <- <-]. eauto.
  - rewrite (getCommit_miss _ _ _ Hid). cbn. intros [= Hf <-].
    pose proof (fetchCommit_Id _ _ _ _ _ Hf) as Hc. split; [done|].
    intros k c0. unfold cacheEntries. cbn. rewrite Hf.
    destruct (decide (id = k)) as [<-|Hne].
    + rewrite lookup_insert_eq. congruence.
    + rewrite lookup_insert_ne by done. apply Hkeyed.
Qed.

Lemma getCommit_Id_witness :
  Id (mkCommit Fixtures.idD [] 3%Z "root") = Fixtures.idD.
Proof.
  destruct (getCommit_Id Fixtures.diamond (Fixtures.emptyRepo "/repo")
           (getCommit Fixtures.diamond Fixtures.idD (Fixtures.emptyRepo "/repo")).2
           Fixtures.idD (mkCommit Fixtures.idD [] 3%Z "root")) as [Hid _].
  - intros k c0 H. unfold cacheEntries, Fixtures.emptyRepo in H. simpl in H.
    by rewrite lookup_empty in H.
  - reflexivity.
  - exact Hid.
Defined.

(** On a handle that started without a cache, a cached record is what a
    fresh handle on the same stores gets for the identifier: a cache hit
    and a new fetch agree. *)
Theorem getCommits_cache_faithful (ext : Collaborators) (root : string)
    (ixs : list idxFile) (log : list Call) (ids : list ObjectID)
    (k : ObjectID) (c : Commit) :
  cacheEntries (getCommits ext ids (mkRepo root ixs None log)) !! k = Some c →
  (getCommit ext k (mkRepo root ixs None [])).1 = Ok c.
Proof.
  intros Hk.
  pose proof (resolve_getCommits ext ids (mkRepo root ixs None log) k) as Hst.
  unfold resolve in Hst. rewrite (getCommit_hit _ _ _ _ Hk) in Hst. simpl in Hst.
  fold (resolve ext (mkRepo root ixs None []) k).
  fold (resolve ext (mkRepo root ixs None log) k) in Hst.
  rewrite resolve_lookup in *. by rewrite Hst.
Qed.

Lemma getCommits_cache_faithful_witness :
  (getCommit Fixtures.diamond Fixtures.idD (Fixtures.emptyRepo "/repo")).1
  = Ok (mkCommit Fixtures.idD [] 3%Z "root").
Proof.
  apply (getCommits_cache_faithful Fixtures.diamond "/repo" [] []
           [Fixtures.idM; Fixtures.idB; Fixtures.idD] Fixtures.idD).
  vm_compute. reflexivity.
Defined.

(** ** First-parent history: a parent that cannot be fetched *)

Lemma CommitsBetween_loop_break (ext : Collaborators) (repo : Repository)
    (before cur : Commit) (n : nat) (e : error) :
  FirstParentBreak ext repo before cur n e →
  ∀ repo' acc fuel,
    (∀ id, resolve ext repo' id = resolve ext repo id) →
    n < fuel →
    (CommitsBetween_loop ext fuel cur (Some before) acc repo').1
    = Returned (Err e).
Proof.
  induction 1 as [cur p ps e Hne Hps Hp|cur p ps next n e Hne Hps Hp _ IH];
    intros repo' acc fuel Hagree Hfuel;
    (destruct fuel as [|fuel]; [lia|]); simpl;
    (destruct (String.eqb_spec (Id cur) (Id before)); [done|]);
    unfold ParentCount, Parent, ParentId; rewrite Hps; simpl;
    pose proof (Hagree p) as Hp'; rewrite Hp in Hp'; unfold resolve in Hp';
    pose proof (resolve_getCommit ext repo' p) as Hstable;
    destruct (getCommit ext p repo') as [r repo'']; simpl in Hp', Hstable;
    subst r; [done|].
  apply IH; [|lia]. intros id. by rewrite Hstable.
Qed.

(** When a first parent on the way cannot be fetched, [CommitsBetween]
    returns the error of that [getCommit] and no list: the commits
    collected up to there are dropped. *)
Theorem CommitsBetween_parent_error (ext : Collaborators) (repo : Repository)
    (before tip : Commit) (n fuel : nat) (e : error) :
  FirstParentBreak ext repo before tip n e →
  n < fuel →
  (CommitsBetween ext fuel (Some tip) (Some before) repo).1 = Returned (Err e).
Proof.
  intros Hbreak Hfuel. unfold CommitsBetween, ParentCount.
  assert (Hps : parents tip ≠ []) by (inversion Hbreak; congruence).
  destruct (parents tip) as [|p ps]; [done|]. simpl.
  by apply (CommitsBetween_loop_break ext repo before tip n e).
Qed.

Lemma CommitsBetween_parent_error_witness :
  (CommitsBetween Fixtures.chain5 3
     (Some (mkCommit Fixtures.idX [Fixtures.idK "5"; Fixtures.idX] 60%Z "tip"))
     (Some Fixtures.k1)
     (Fixtures.emptyRepo "/elsewhere")).1
  = Returned (Err (ObjectNotFound (Fixtures.idK "5"))).
Proof.
  apply (CommitsBetween_parent_error Fixtures.chain5
           (Fixtures.emptyRepo "/elsewhere") Fixtures.k1 _ 0 3).
  - eapply break_here; [discriminate | reflexivity | reflexivity].
  - lia.
Defined.

(** ** Merge-aware ancestry: what the traversal keeps *)

Lemma commitsBefore_unfold (ext : Collaborators) (fuel : nat) (l : List)
    (parent : option nat) (id : ObjectID) (repo : Repository) :
  commitsBefore ext (S fuel) l parent id repo =
    match getCommit ext id repo with
    | (Err err, repo) => (Returned (Some err), repo, l)
    | (Ok c, repo) =>
        let inserted :=
          match parent with
          | None => Returned (Some (PushBack c l))
          | Some p =>
              match scan c (from_element p (elems l)) with
              | Present => Returned None
              | After in_ => Returned (Some (InsertAfter c in_ l))
              | AtNil => Panicked
              end
          end in
        match inserted with
        | Returned None => (Returned None, repo, l)
        | Returned (Some (e, l)) =>
            let pr := if 1 <? ParentCount c then Some e else parent in
            eachParent (commitsBefore ext fuel) c pr (seq 0 (ParentCount c)) repo l
        | Panicked => (Panicked, repo, l)
        | OutOfFuel => (OutOfFuel, repo, l)
        end
    end.
Proof. reflexivity. Qed.

Lemma from_element_found (p : nat) (es : list Element) :
  p ∈ map addr es →
  ∃ e rest,
    from_element p es = e :: rest ∧ ∀ x, x ∈ e :: rest → x ∈ es.
Proof.
  induction es as [|x es IH]; simpl; intros Hin; [inversion Hin|].
  destruct (Nat.eqb_spec (addr x) p) as [Heq|Hne].
  - by exists x, es.
  - apply elem_of_cons in Hin as [Hp|Hin]; [congruence|].
    destruct (IH Hin) as (e & rest & Hfrom & Hsub).
    exists e, rest. split; [done|]. intros y Hy. right. by apply Hsub.
Qed.

Lemma scan_stops_inside (c : Commit) (es : list Element) :
  es ≠ [] →
  scan c es = Present ∨ ∃ e, e ∈ es ∧ scan c es = After (addr e).
Proof.
  induction es as [|e es IH]; [done|]. intros _. simpl.
  destruct (String.eqb (Id (Value e)) (Id c)); [by left|].
  destruct es as [|n rest]; [right; exists e; split; [left | done]|].
  destruct (When (Value e) =? When c)%Z;
    [right; exists e; split; [left | done]|].
  destruct ((When (Value e) >? When c)%Z && (When (Value n) <? When c)%Z);
    [right; exists e; split; [left | done]|].
  destruct IH as [IH|(x & Hx & IH)]; [done | by left |].
  right. exists x. split; [by right | done].
Qed.

Lemma insert_after_sublist (e : Element) (mark : nat) (es : list Element) :
  es `sublist_of` insert_after e mark es.
Proof.
  induction es as [|x es IH]; simpl; [done|].
  destruct (addr x =? mark).
  - apply sublist_skip, sublist_cons. done.
  - by apply sublist_skip.
Qed.

Lemma insert_after_head (e : Element) (mark : nat) (es : list Element) :
  head (insert_after e mark es) = head es.
Proof. destruct es as [|x es]; simpl; [done|]. by destruct (addr x =? mark). Qed.

Lemma insert_after_in (e : Element) (mark : nat) (es : list Element) :
  mark ∈ map addr es → e ∈ insert_after e mark es.
Proof.
  induction es as [|x es IH]; simpl; intros Hin; [inversion Hin|].
  destruct (Nat.eqb_spec (addr x) mark) as [Heq|Hne].
  - right. left.
  - apply elem_of_cons in Hin as [Hp|Hin]; [congruence|]. right. auto.
Qed.

Lemma anchored_sublist (parent : option nat) (l l' : List) :
  anchored parent l → elems l `sublist_of` elems l' → anchored parent l'.
Proof.
  destruct parent as [p|]; simpl; [|done]. intros Hin Hsub.
  apply list_elem_of_fmap in Hin as (x & -> & Hx).
  apply list_elem_of_fmap. exists x. split; [done|].
  by eapply sublist_submseteq, elem_of_submseteq in Hsub.
Qed.

Lemma head_sublist_trans (l1 l2 l3 : list Element) :
  (l1 ≠ [] → head l2 = head l1) →
  (l2 ≠ [] → head l3 = head l2) →
  l1 `sublist_of` l2 →
  l1 ≠ [] → head l3 = head l1.
Proof.
  intros H12 H23 Hsub Hne. rewrite H23, H12; [done | done |].
  intros ->. apply sublist_nil_r in Hsub. done.
Qed.

Lemma eachParent_keeps
    (rec : List → option nat → ObjectID → Repository →
           outcome (option error) * Repository * List)
    (c : Commit) (pr : option nat) :
  (∀ l id repo, anchored pr l → keeps l (rec l pr id repo)) →
  ∀ is_ repo l, anchored pr l → keeps l (eachParent rec c pr is_ repo l).
Proof.
  intros Hrec. induction is_ as [|i is_ IH]; intros repo l Hanch; simpl.
  - by repeat split.
  - destruct (ParentId c i) as [id|err]; [|by repeat split].
    destruct (Hrec l id repo Hanch) as (Hnp & Hsub & Hhead).
    destruct (rec l pr id repo) as [[[[err|]| |] repo'] l'] eqn:Hrun;
      simpl in *; try by repeat split.
    destruct (IH repo' l') as (Hnp' & Hsub' & Hhead').
    { by eapply anchored_sublist. }
    repeat split; [done | by etrans |].
    by eapply head_sublist_trans.
Qed.

Lemma commitsBefore_keeps (ext : Collaborators) (fuel : nat) :
  ∀ l parent id repo,
    anchored parent l → keeps l (commitsBefore ext fuel l parent id repo).
Proof.
  induction fuel as [|fuel IH]; intros l parent id repo Hanch.
  - by repeat split.
  - rewrite commitsBefore_unfold.
    destruct (getCommit ext id repo) as [[c|err] repo']; [|by repeat split].
    destruct parent as [p|]; cbv zeta.
    + simpl in Hanch.
      destruct (from_element_found p (elems l) Hanch) as (e0 & rest & Hfrom & Hin).
      rewrite Hfrom.
      destruct (scan_stops_inside c (e0 :: rest)) as [->|(x & Hx & ->)]; [done | |].
      { by repeat split. }
      assert (Hmark : addr x ∈ map addr (elems l)).
      { apply list_elem_of_fmap. exists x. split; [done | by apply Hin]. }
      unfold InsertAfter.
      set (e := mkElement (nextAddr l) c).
      set (l1 := mkList (insert_after e (addr x) (elems l)) (S (nextAddr l))).
      assert (Hsub1 : elems l `sublist_of` elems l1) by apply insert_after_sublist.
      destruct (eachParent_keeps (commitsBefore ext fuel) c
                  (if 1 <? ParentCount c then Some (nextAddr l) else Some p))
        with (is_ := seq 0 (ParentCount c)) (repo := repo') (l := l1)
        as (Hnp & Hsub & Hhead).
      { intros. by apply IH. }
      { destruct (1 <? ParentCount c).
        - simpl. apply list_elem_of_fmap. exists e. split; [done|].
          by apply insert_after_in.
        - by apply (anchored_sublist (Some p) l l1). }
      repeat split; [done | by etrans |].
      intros Hne. eapply (head_sublist_trans (elems l) (elems l1)); try done.
      intros _. apply insert_after_head.
    + unfold PushBack.
      set (e := mkElement (nextAddr l) c).
      set (l1 := mkList (elems l ++ [e]) (S (nextAddr l))).
      assert (Hsub1 : elems l `sublist_of` elems l1) by apply sublist_inserts_r, reflexivity.
      destruct (eachParent_keeps (commitsBefore ext fuel) c
                  (if 1 <? ParentCount c then Some (nextAddr l) else None))
        with (is_ := seq 0 (ParentCount c)) (repo := repo') (l := l1)
        as (Hnp & Hsub & Hhead).
      { intros. by apply IH. }
      { destruct (1 <? ParentCount c); [|done].
        simpl. rewrite map_app. apply elem_of_app. right. left. }
      repeat split; [done | by etrans |].
      intros Hne. eapply (head_sublist_trans (elems l) (elems l1)); try done.
      intros _. simpl. by destruct (elems l).
Qed.

(** [commitsBefore] only adds to the list it is given.  Called with an
    anchor that is nil or an element of the list, it never dereferences a
    nil element, and whether it ends well, with an error or out of fuel,
    the elements that were in the list are still there, in the same order,
    with the same first element. *)
Theorem commitsBefore_only_adds (ext : Collaborators) (fuel : nat) (l : List)
    (parent : option nat) (id : ObjectID) (repo : Repository) :
  anchored parent l →
  (commitsBefore ext fuel l parent id repo).1.1 ≠ Panicked ∧
  elems l `sublist_of` elems (commitsBefore ext fuel l parent id repo).2 ∧
  (elems l ≠ [] →
   head (elems (commitsBefore ext fuel l parent id repo).2) = head (elems l)).
Proof. apply commitsBefore_keeps. Qed.

Lemma commitsBefore_only_adds_witness :
  (commitsBefore Fixtures.diamond 10 list_New None Fixtures.idM
     (Fixtures.emptyRepo "/repo")).1.1 ≠ Panicked.
Proof.
  destruct (commitsBefore_only_adds Fixtures.diamond 10 list_New None
              Fixtures.idM (Fixtures.emptyRepo "/repo")) as [H _].
  - exact I.
  - exact H.
Defined.

(** [getCommitsBefore] never panics; when it ends well the list starts
    with the commit that [getCommit] answers for the identifier; when that
    [getCommit] fails the error is returned with an empty list. *)
Theorem getCommitsBefore_starts_with (ext : Collaborators) (fuel : nat)
    (id : ObjectID) (repo : Repository) :
  (getCommitsBefore ext fuel id repo).1.1 ≠ Panicked ∧
  ((getCommitsBefore ext fuel id repo).1.1 = Returned None →
   ∃ c rest,
     (getCommit ext id repo).1 = Ok c ∧
     map Value (elems (getCommitsBefore ext fuel id repo).2) = c :: rest) ∧
  (∀ e,
     (getCommit ext id repo).1 = Err e → 0 < fuel →
     (getCommitsBefore ext fuel id repo).1.1 = Returned (Some e) ∧
     elems (getCommitsBefore ext fuel id repo).2 = []).
Proof.
  unfold getCommitsBefore. split; [by apply commitsBefore_keeps|]. split.
  - destruct fuel as [|fuel]; [done|]. rewrite commitsBefore_unfold.
    destruct (getCommit ext id repo) as [[c|err] repo']; [|done].
    cbv zeta. unfold PushBack, list_New. simpl.
    destruct (eachParent_keeps (commitsBefore ext fuel) c
                (if 1 <? ParentCount c then Some 0 else None))
      with (is_ := seq 0 (ParentCount c)) (repo := repo')
           (l := mkList [mkElement 0 c] 1)
      as (_ & _ & Hhead).
    { intros. by apply commitsBefore_keeps. }
    { destruct (1 <? ParentCount c); [|done]. simpl. left. }
    intros _. specialize (Hhead ltac:(done)).
    match type of Hhead with
    | head (elems ?r.2) = _ => destruct (elems r.2) as [|e0 rest]
    end; [done|].
    simpl in Hhead. injection Hhead as ->. by exists c, (map Value rest).
  - intros e He Hfuel. destruct fuel as [|fuel]; [lia|].
    rewrite commitsBefore_unfold.
    destruct (getCommit ext id repo) as [[c|err] repo']; [done|].
    simpl in He. by injection He as ->.
Qed.

Lemma getCommitsBefore_starts_with_witness :
  (getCommitsBefore Fixtures.diamond 10 Fixtures.idX
     (Fixtures.emptyRepo "/repo")).1.1
  = Returned (Some (ObjectNotFound Fixtures.idX)).
Proof.
  destruct (getCommitsBefore_starts_with Fixtures.diamond 10 Fixtures.idX
              (Fixtures.emptyRepo "/repo")) as (_ & _ & H).
  destruct (H (ObjectNotFound Fixtures.idX)) as [Hres _];
    [reflexivity | lia | exact Hres].
Defined.

(** ** Merge-aware ancestry: histories without a merge *)

Lemma commitsBefore_linear (ext : Collaborators) (repo : Repository)
    (c : Commit) (l : list Commit) :
  LinearHistory ext repo c l →
  ∀ fuel id repo' L,
    (∀ k, resolve ext repo' k = resolve ext repo k) →
    resolve ext repo id = Ok c →
    length l ≤ fuel →
    (commitsBefore ext fuel L None id repo').1.1 = Returned None ∧
    map Value (elems (commitsBefore ext fuel L None id repo').2)
    = map Value (elems L) ++ l ∧
    ∀ k, resolve ext (commitsBefore ext fuel L None id repo').1.2 k
         = resolve ext repo k.
Proof.
  induction 1 as [c Hroot|c p next l Hps Hp _ IH];
    intros fuel id repo' L Hagree Hid Hfuel;
    (destruct fuel as [|fuel]; [simpl in Hfuel; lia|]);
    rewrite commitsBefore_unfold;
    pose proof (Hagree id) as Hc; rewrite Hid in Hc; unfold resolve in Hc;
    pose proof (resolve_getCommit ext repo' id) as Hstable;
    destruct (getCommit ext id repo') as [r repo'']; simpl in Hc, Hstable;
    subst r; cbv zeta; unfold PushBack, ParentCount.
  - rewrite Hroot. simpl. rewrite map_app.
    split; [done|]. split; [done|]. intros k. by rewrite Hstable.
  - rewrite Hps. simpl. unfold ParentId. rewrite Hps. simpl.
    set (L1 := mkList (elems L ++ [mkElement (nextAddr L) c]) (S (nextAddr L))).
    destruct (IH fuel p repo'' L1) as (Hret & Hlist & Hagree').
    { intros k. by rewrite Hstable. }
    { done. }
    { simpl in Hfuel. lia. }
    destruct (commitsBefore ext fuel L1 None p repo'') as [[o repo3] L3].
    simpl in Hret, Hlist, Hagree'. subst o. simpl.
    split; [done|]. split; [|done].
    rewrite Hlist. unfold L1. simpl. by rewrite map_app, <- app_assoc.
Qed.

(** On a history without a merge, where every commit has one parent down
    to a commit without parents, [getCommitsBefore] ends well and the list
    is the commit followed by its ancestors, each of them once, in parent
    order. *)
Theorem getCommitsBefore_linear (ext : Collaborators) (repo : Repository)
    (id : ObjectID) (c : Commit) (l : list Commit) (fuel : nat) :
  (getCommit ext id repo).1 = Ok c →
  LinearHistory ext repo c l →
  length l ≤ fuel →
  (getCommitsBefore ext fuel id repo).1.1 = Returned None ∧
  map Value (elems (getCommitsBefore ext fuel id repo).2) = l.
Proof.
  intros Hid Hlin Hfuel. unfold getCommitsBefore.
  destruct (commitsBefore_linear ext repo c l Hlin fuel id repo list_New)
    as (Hret & Hlist & _); done.
Qed.

Lemma getCommitsBefore_linear_witness :
  map Value (elems (getCommitsBefore Fixtures.chain5 5 (Fixtures.idK "5")
                      (Fixtures.emptyRepo "/repo")).2)
  = [Fixtures.k5; Fixtures.k4; Fixtures.k3; Fixtures.k2; Fixtures.k1].
Proof.
  destruct (getCommitsBefore_linear Fixtures.chain5 (Fixtures.emptyRepo "/repo")
              (Fixtures.idK "5") Fixtures.k5
              [Fixtures.k5; Fixtures.k4; Fixtures.k3; Fixtures.k2; Fixtures.k1] 5)
    as [_ H].
  - reflexivity.
  - eapply linear_parent; [reflexivity | reflexivity |].
    eapply linear_parent; [reflexivity | reflexivity |].
    eapply linear_parent; [reflexivity | reflexivity |].
    eapply linear_parent; [reflexivity | reflexivity |].
    by apply linear_root.
  - simpl. lia.
  - exact H.
Defined.

(** ** Merge-aware ancestry: when a second visit is detected *)

Lemma scan_descending (c : Commit) (es : list Element) :
  StronglySorted (λ a b, (When (Value b) < When (Value a))%Z) es →
  (∃ e, e ∈ es ∧ Id (Value e) = Id c ∧ When (Value e) = When c) →
  scan c es = Present.
Proof.
  induction es as [|e es IH]; intros Hs (x & Hin & Hid & Hw);
    [inversion Hin|].
  simpl. destruct (String.eqb_spec (Id (Value e)) (Id c)) as [|Hne]; [done|].
  apply elem_of_cons in Hin as [->|Hin]; [congruence|].
  apply StronglySorted_inv in Hs as [Hs Hall].
  destruct es as [|n rest]; [inversion Hin|].
  assert (Hx : (When c < When (Value e))%Z).
  { rewrite <- Hw. rewrite Forall_forall in Hall. by apply Hall. }
  assert (Hn : (When c ≤ When (Value n))%Z).
  { apply elem_of_cons in Hin as [->|Hin]; [lia|].
    apply StronglySorted_inv in Hs as [_ Hall'].
    rewrite Forall_forall in Hall'. rewrite <- Hw.
    by apply Z.lt_le_incl, Hall'. }
  destruct (Z.eqb_spec (When (Value e)) (When c)); [lia|].
  destruct (Z.ltb_spec (When (Value n)) (When c)); [lia|].
  rewrite andb_false_r. apply IH; [done|]. by exists x.
Qed.

(** When the committer times strictly decrease along the list from the
    anchor on, a commit that is already in that part of the list is
    found by the scan: the call returns without inserting it and without
    visiting its parents, and the list is as it was. *)
Theorem commitsBefore_skips_present (ext : Collaborators) (fuel : nat)
    (l : List) (p : nat) (id : ObjectID) (repo : Repository) (c : Commit) :
  (getCommit ext id repo).1 = Ok c →
  StronglySorted (λ a b, (When (Value b) < When (Value a))%Z)
    (from_element p (elems l)) →
  (∃ e, e ∈ from_element p (elems l) ∧
        Id (Value e) = Id c ∧ When (Value e) = When c) →
  commitsBefore ext (S fuel) l (Some p) id repo
  = (Returned None, (getCommit ext id repo).2, l).
Proof.
  intros Hc Hsorted Hin. rewrite commitsBefore_unfold.
  destruct (getCommit ext id repo) as [r repo']. simpl in Hc. subst r.
  cbv zeta. by rewrite (scan_descending c _ Hsorted Hin).
Qed.

Lemma commitsBefore_skips_present_witness :
  commitsBefore Fixtures.chain5 1 MoreFixtures.threeListed (Some 0)
    (Fixtures.idK "3") (Fixtures.emptyRepo "/repo")
  = (Returned None,
     (getCommit Fixtures.chain5 (Fixtures.idK "3") (Fixtures.emptyRepo "/repo")).2,
     MoreFixtures.threeListed).
Proof.
  apply (commitsBefore_skips_present Fixtures.chain5 0 MoreFixtures.threeListed 0
           (Fixtures.idK "3") (Fixtures.emptyRepo "/repo") Fixtures.k3).
  - reflexivity.
  - simpl. repeat (constructor; simpl; try lia).
  - exists (mkElement 2 Fixtures.k3). split; [|done].
    simpl. right. right. left.
Defined.

(** ** Commits by branch and by tag *)

(** [GetCommitOfBranch] and [GetCommitOfTag] resolve the name under
    refs/heads/ and refs/tags/ and then fetch the commit.  When they
    answer a commit, the ref resolved to 40 hex digits and the commit is
    what [getCommit] answers for their decoding, now cached under it; when
    the ref does not resolve, its error is returned and the handle is left
    as it was: no object is read. *)
Theorem GetCommitOfBranch_and_Tag (ext : Collaborators)
    (ObjectIDHex : string → ObjectID) (fuel : nat) (name : string)
    (repo : Repository) :
  let byName prefix get :=
    (∀ c repo',
       get = (Returned (Ok c), repo') →
       ∃ hex,
         getCommitIdOfRef ext fuel repo (prefix +:+ name) = Returned (Ok hex) ∧
         IsObjectIDHex hex = true ∧
         getCommit ext (ObjectIDHex hex) repo = (Ok c, repo') ∧
         cacheEntries repo' !! ObjectIDHex hex = Some c) ∧
    (∀ e,
       getCommitIdOfRef ext fuel repo (prefix +:+ name) = Returned (Err e) →
       get = (Returned (Err e), repo)) in
  byName "refs/heads/"%string (GetCommitOfBranch ext ObjectIDHex fuel name repo) ∧
  byName "refs/tags/"%string (GetCommitOfTag ext ObjectIDHex fuel name repo).
Proof.
  cbv zeta. unfold GetCommitOfBranch, GetCommitOfTag, GetCommitIdOfBranch,
    GetCommitIdOfTag, GetCommit.
  split; split.
  1,3: intros c repo';
    match goal with
    | |- context [getCommitIdOfRef _ _ _ ?p] =>
        destruct (getCommitIdOfRef ext fuel repo p) as [[hex|e]| |] eqn:Href
    end; try done;
    destruct (getCommit ext (ObjectIDHex hex) repo) as [r repo''] eqn:Hget;
    intros [= -> ->]; exists hex; split; [done|];
    split; [by eapply getCommitIdOfRef_hex_of_Ok|];
    split; [done | by eapply getCommit_ok_cached].
  all: by intros e ->.
Qed.

Lemma GetCommitOfBranch_and_Tag_witness :
  GetCommitOfBranch MoreFixtures.namedDiamond MoreFixtures.fromHex 1 "gone"
    (Fixtures.emptyRepo "/repo")
  = (Returned (Err (RefNotFound "refs/heads/gone")), Fixtures.emptyRepo "/repo") ∧
  ∃ hex,
    getCommitIdOfRef MoreFixtures.namedDiamond 1 (Fixtures.emptyRepo "/repo")
      "refs/tags/v1" = Returned (Ok hex) ∧
    IsObjectIDHex hex = true.
Proof.
  split.
  - destruct (GetCommitOfBranch_and_Tag MoreFixtures.namedDiamond
                MoreFixtures.fromHex 1 "gone" (Fixtures.emptyRepo "/repo"))
      as [[_ H] _].
    exact (H (RefNotFound "refs/heads/gone") eq_refl).
  - destruct (GetCommitOfBranch_and_Tag MoreFixtures.namedDiamond
                MoreFixtures.fromHex 1 "v1" (Fixtures.emptyRepo "/repo"))
      as [_ [H _]].
    destruct (H (mkCommit Fixtures.idD [] 3%Z "root")
                (getCommit MoreFixtures.namedDiamond Fixtures.idD
                   (Fixtures.emptyRepo "/repo")).2 eq_refl)
      as (hex & Href & Hhex & _).
    by exists hex.
Defined.
